(** * Axle-box grouping and detection evaluation

    A shallow embedding of the two algorithms of the repository:

    - [merge_boxes] of [1_axle_tree_merger/merge_axle_tree.py], the
      left-to-right sweep that merges single-axle boxes into grouped ones,
      with [update_annotations] and [merge_axle_trees], which apply it to
      an annotation;
    - [calculate_iou], [evaluate_image], [evaluate_pr_naive] and
      [evaluate_pr] of
      [2_performance_evaluation_precision_accuracy/evaluate_perf.py], the
      IoU of two boxes, the greedy matching of predictions against ground
      truth and the precision/recall sweep over score thresholds.

    The functions that read, write and print JSON files are left out.

    Numbers.  Coordinates, scores and thresholds are Python floats (or the
    integers JSON yields); each is modelled as the rational [Q] it stands
    for, and compared with [Qle_bool].  Counters are Python integers,
    modelled as [Z].  Comparisons, [min] and [max] are exact on floats.
    What rounds is taken as a parameter: the sum in the join test of the
    merger is an arbitrary [plus], and the IoU of the matching and of the
    sweeps an arbitrary [iou].  [calculate_iou] is the IoU of exact
    geometry, without the rounding of shapely; it serves to run the
    evaluation on boxes with small integer corners.  The thresholds [i / N]
    and the quotients of precision and recall are exact quotients.

    Containers.  Python sets of indices are [gset]s, the dictionary of
    predictions by location is a [gmap string], lists are lists. *)

From Stdlib Require Import QArith Qminmax Qabs ZArith.
From stdpp Require Import gmap strings list sorting.

Local Open Scope Z_scope.
#[local] Set Warnings "-clear-no-such-hyp".

(** ** Comparisons on rationals *)

Definition Qltb (x y : Q) : bool := negb (Qle_bool y x).

(** Python's [max(a, b)] and [min(a, b)]: the first argument is kept unless
    the second is strictly better. *)
Definition py_max2 (a b : Q) : Q := if Qltb a b then b else a.
Definition py_min2 (a b : Q) : Q := if Qltb b a then b else a.

(** [min] and [max] over a non-empty sequence [x :: xs]. *)
Definition py_min (x : Q) (xs : list Q) : Q := fold_left py_min2 xs x.
Definition py_max (x : Q) (xs : list Q) : Q := fold_left py_max2 xs x.

(** ** Stable sorting

    [sorted(l, key=...)] and [list.sort(key=...)] are stable, also with
    [reverse=True].  [sort_by before] is the stable insertion sort for the
    strict order [before] on keys: an element moves in front of exactly the
    elements it does not come strictly after. *)

Section StableSort.
Context {A : Type} (before : A → A → bool).

Fixpoint insert_by (x : A) (l : list A) : list A :=
  match l with
  | [] => [x]
  | y :: l' => if before y x then y :: insert_by x l' else x :: l
  end.

Definition sort_by (l : list A) : list A := foldr insert_by [] l.

(** No later element goes strictly before an earlier one. *)
Definition ordered_by : list A → Prop :=
  StronglySorted (λ a b, before b a = false).
End StableSort.

(** ** Boxes *)

Record Box := mkBox { xmin : Q; ymin : Q; xmax : Q; ymax : Q }.

(** ** merge_boxes *)

(** [enumerate(l)], counting from [k]. *)
Fixpoint enum_from {A} (k : nat) (l : list A) : list (nat * A) :=
  match l with
  | [] => []
  | x :: l' => (k, x) :: enum_from (S k) l'
  end.

Definition enumerate {A} (l : list A) : list (nat * A) := enum_from 0 l.

(** [sorted(single_axle_boxes, key=lambda b: b["xmin"])] *)
Definition xmin_before (a b : Box) : bool := Qltb (xmin a) (xmin b).
Definition sort_by_xmin : list Box → list Box := sort_by xmin_before.

(** The bounding box appended to [merged_boxes] for the group
    [box1 :: joined]. *)
Definition envelope (box1 : Box) (joined : list Box) : Box :=
  {| xmin := py_min (xmin box1) (map xmin joined);
     ymin := py_min (ymin box1) (map ymin joined);
     xmax := py_max (xmax box1) (map xmax joined);
     ymax := py_max (ymax box1) (map ymax joined) |}.

(** State of the scan [for j in range(i + 1, len(single_axle_boxes))]:
    the boxes appended to [group] after [box1], each kept with its index,
    [remaining_single_axle] and [current_xmax]. *)
Record scan := mkScan {
  joined : list (nat * Box);
  remaining : gset nat;
  current_xmax : Q
}.

(** [current_xmax + overlap_threshold] is a sum of two floats, which Python
    rounds to a float: it need not be the sum of the two rationals that the
    floats stand for.  The sweep is defined for an arbitrary addition
    [plus], of which Python's is the instance the program runs; the
    comparisons, [min] and [max] do not round. *)
Section Sweep.
Variable plus : Q → Q → Q.

Definition scan_step (overlap_threshold : Q) (st : scan) (jb : nat * Box) : scan :=
  let '(j, box2) := jb in
  if bool_decide (j ∈ remaining st) then
    if Qle_bool (xmin box2) (plus (current_xmax st) overlap_threshold) then
      {| joined := joined st ++ [(j, box2)];
         remaining := remaining st ∖ {[j]};
         current_xmax := py_max2 (current_xmax st) (xmax box2) |}
    else st
  else st.

Definition scan_from (overlap_threshold : Q) (box1 : Box)
    (rem : gset nat) (rest : list (nat * Box)) : scan :=
  fold_left (scan_step overlap_threshold) rest
    {| joined := []; remaining := rem; current_xmax := xmax box1 |}.

(** State of the loop [for i, box1 in enumerate(single_axle_boxes)]:
    [merged_boxes] and [remaining_single_axle].  [groups] records, for each
    box appended to [merged_boxes], the members of its group with their
    indices; the Python code forgets the group once its envelope is stored,
    and so does [merge_image]. *)
Record sweep := mkSweep {
  merged_boxes : list Box;
  groups : list (list (nat * Box));
  remaining_single_axle : gset nat
}.

Fixpoint sweep_loop (overlap_threshold : Q) (boxes : list (nat * Box))
    (st : sweep) : sweep :=
  match boxes with
  | [] => st
  | (i, box1) :: rest =>
      if bool_decide (i ∈ remaining_single_axle st) then
        let sc := scan_from overlap_threshold box1 (remaining_single_axle st) rest in
        let group := (i, box1) :: joined sc in
        if (1 <? length group)%nat then
          sweep_loop overlap_threshold rest
            {| merged_boxes := merged_boxes st ++ [envelope box1 (map snd (joined sc))];
               groups := groups st ++ [group];
               remaining_single_axle := remaining sc ∖ {[i]} |}
        else
          sweep_loop overlap_threshold rest
            {| merged_boxes := merged_boxes st;
               groups := groups st;
               remaining_single_axle := remaining sc |}
      else sweep_loop overlap_threshold rest st
  end.

Definition sweep_image (single_axle_boxes : list Box) (overlap_threshold : Q) : sweep :=
  sweep_loop overlap_threshold (enumerate (sort_by_xmin single_axle_boxes))
    {| merged_boxes := []; groups := [];
       remaining_single_axle := list_to_set (seq 0 (length single_axle_boxes)) |}.

(** [[single_axle_boxes[i] for i in remaining_single_axle]]: the set holds
    small integers, which CPython iterates in increasing order. *)
Definition select_remaining (rem : gset nat) (boxes : list (nat * Box)) : list (nat * Box) :=
  filter (λ ib, ib.1 ∈ rem) boxes.

Record merged_image := mkMerged {
  grouped_axles : list Box;
  single_axle : list Box
}.

(** The body of the loop over images. *)
Definition merge_image (single_axle_boxes : list Box) (overlap_threshold : Q) : merged_image :=
  let st := sweep_image single_axle_boxes overlap_threshold in
  {| grouped_axles := merged_boxes st;
     single_axle :=
       map snd (select_remaining (remaining_single_axle st)
                  (enumerate (sort_by_xmin single_axle_boxes))) |}.

Definition merge_boxes (single_axle_boxes_by_image : gmap string (list Box))
    (overlap_threshold : Q) : gmap string merged_image :=
  (λ single_axle_boxes, merge_image single_axle_boxes overlap_threshold)
    <$> single_axle_boxes_by_image.
End Sweep.

(** ** Exceptions *)

Inductive exn := KeyError | ZeroDivisionError.

Inductive result (A : Type) :=
| Ok (a : A)
| Raise (e : exn).
Arguments Ok {A} a.
Arguments Raise {A} e.

Global Instance result_bind : MBind result := λ A B k r,
  match r with
  | Ok a => k a
  | Raise e => Raise e
  end.

(** A list comprehension whose element expression may raise. *)
Fixpoint mapM {A B} (f : A → result B) (l : list A) : result (list B) :=
  match l with
  | [] => Ok []
  | x :: l' => y ← f x; ys ← mapM f l'; Ok (y :: ys)
  end.

(** ** Annotation documents

    A region is a JSON object; evaluation reads its ["region"] and its
    ["score"], which ground-truth regions do not carry.  An image is read
    through ["location"] and ["annotated_regions"], a document through
    its ["images"] list. *)

Record Region := mkRegion { region : Box; score : option Q }.

Record Image := mkImage { location : string; annotated_regions : list Region }.

(** ** calculate_iou

    [shapely.geometry.box(minx, miny, maxx, maxy)] is the rectangle with
    these corners, whichever way round they are given; the areas of
    intersection and union are those of plane geometry, without the
    rounding of the floats.  Both arguments are boxes, so the TypeError of
    the type check does not arise. *)

Definition overlap (lo1 hi1 lo2 hi2 : Q) : Q :=
  Qmax 0 (Qmin (Qmax lo1 hi1) (Qmax lo2 hi2) - Qmax (Qmin lo1 hi1) (Qmin lo2 hi2)).

Definition area (b : Box) : Q :=
  (Qabs (xmax b - xmin b) * Qabs (ymax b - ymin b))%Q.

Definition intersection_area (b1 b2 : Box) : Q :=
  (overlap (xmin b1) (xmax b1) (xmin b2) (xmax b2)
   * overlap (ymin b1) (ymax b1) (ymin b2) (ymax b2))%Q.

Definition union_area (b1 b2 : Box) : Q :=
  (area b1 + area b2 - intersection_area b1 b2)%Q.

Definition calculate_iou (box1 box2 : Box) : Q :=
  if Qeq_bool (union_area box1 box2) 0 then 0%Q
  else (intersection_area box1 box2 / union_area box1 box2)%Q.

(** ** Evaluation

    The matching and the sweep use the geometry only through the value of
    the IoU; they are defined for an arbitrary [iou], of which
    [calculate_iou] is the instance the program runs. *)

(** Counters and [matched_gt] of [evaluate_image].  [best_gt_idx] is [None]
    or an index, and the set receives whichever it is. *)
Record tally := mkTally {
  true_positives : Z;
  false_positives : Z;
  false_negatives : Z;
  matched_gt : gset (option nat)
}.

(** One entry of the result list of the sweep. *)
Record pr_point := mkPoint { precision : Q; recall : Q; threshold : Q }.

(** [sort(key=lambda x: x[1], reverse=True)] *)
Definition score_before (a b : Box * Q) : bool := Qltb b.2 a.2.
Definition sort_by_score : list (Box * Q) → list (Box * Q) := sort_by score_before.

(** [region.get("score", 0)] *)
Definition get_score (r : Region) : Q := default 0%Q (score r).

(** [region["score"]] *)
Definition lookup_score (r : Region) : result Q :=
  match score r with
  | Some s => Ok s
  | None => Raise KeyError
  end.

(** [[(region["region"], region["score"]) for region in ...
      if region.get("score", 0) >= threshold]] *)
Fixpoint pred_boxes_above (regions : list Region) (thr : Q) : result (list (Box * Q)) :=
  match regions with
  | [] => Ok []
  | r :: rs =>
      if Qle_bool thr (get_score r) then
        s ← lookup_score r;
        tl ← pred_boxes_above rs thr;
        Ok ((region r, s) :: tl)
      else pred_boxes_above rs thr
  end.

(** [[(region["region"], region["score"]) for region in ...
      if region["score"] >= threshold]] of [evaluate_pr_naive] *)
Fixpoint naive_pred_boxes (regions : list Region) (thr : Q) : result (list (Box * Q)) :=
  match regions with
  | [] => Ok []
  | r :: rs =>
      s ← lookup_score r;
      if Qle_bool thr s then
        s' ← lookup_score r;
        tl ← naive_pred_boxes rs thr;
        Ok ((region r, s') :: tl)
      else naive_pred_boxes rs thr
  end.

(** [[(region["region"], region["score"]) for region in ...]] *)
Definition all_pred_boxes (regions : list Region) : result (list (Box * Q)) :=
  mapM (λ r, s ← lookup_score r; Ok (region r, s)) regions.

(** [total_tp / (total_tp + total_fp) if (total_tp + total_fp) > 0 else 0] *)
Definition ratio (num den : Z) : Q :=
  if 0 <? den then (inject_Z num / inject_Z den)%Q else 0%Q.

(** [a / b] on integers *)
Definition py_div (a b : Z) : result Q :=
  if b =? 0 then Raise ZeroDivisionError else Ok (inject_Z a / inject_Z b)%Q.

(** [range(n)] *)
Definition range (n : Z) : list Z := map Z.of_nat (seq 0 (Z.to_nat n)).

(** [[i / N for i in range(N + 1)]] *)
Definition thresholds (N : Z) : result (list Q) :=
  mapM (λ i, py_div i N) (range (N + 1)).

Definition threshold_before (a b : pr_point) : bool := Qltb (threshold a) (threshold b).

(** [score >= threshold] on a pair [(box, score)] *)
Definition above (thr : Q) (bs : Box * Q) : Prop := Qle_bool thr bs.2 = true.

Global Instance above_dec thr bs : Decision (above thr bs) :=
  decide (Qle_bool thr bs.2 = true).

Section Evaluation.
Variable iou : Box → Box → Q.

(** The scan [for idx, gt in enumerate(gt_boxes)], on the pair
    [(best_iou, best_gt_idx)]. *)
Definition best_step (matched : gset (option nat)) (pred : Box)
    (best : Q * option nat) (ig : nat * Box) : Q * option nat :=
  let '(idx, gt) := ig in
  if bool_decide (Some idx ∈ matched) then best
  else
    let iou_value := iou pred gt in
    if Qltb best.1 iou_value then (iou_value, Some idx) else best.

Definition best_match (gt_boxes : list Box) (matched : gset (option nat))
    (pred : Box) : Q * option nat :=
  fold_left (best_step matched pred) (enumerate gt_boxes) (0%Q, None).

(** The body of [for pred, _ in pred_boxes]. *)
Definition match_step (gt_boxes : list Box) (Jaccard_min : Q)
    (st : tally) (ps : Box * Q) : tally :=
  let '(best_iou, best_gt_idx) := best_match gt_boxes (matched_gt st) ps.1 in
  if Qle_bool Jaccard_min best_iou && bool_decide (best_gt_idx ∉ matched_gt st) then
    {| true_positives := true_positives st + 1;
       false_positives := false_positives st;
       false_negatives := false_negatives st - 1;
       matched_gt := {[best_gt_idx]} ∪ matched_gt st |}
  else
    {| true_positives := true_positives st;
       false_positives := false_positives st + 1;
       false_negatives := false_negatives st;
       matched_gt := matched_gt st |}.

Definition match_loop (gt_boxes : list Box) (Jaccard_min : Q)
    (pred_boxes : list (Box * Q)) : tally :=
  fold_left (match_step gt_boxes Jaccard_min) pred_boxes
    {| true_positives := 0; false_positives := 0;
       false_negatives := Z.of_nat (length gt_boxes); matched_gt := ∅ |}.

(** [evaluate_image] from the early return on; the result is
    [(true_positives, false_negatives, false_positives)]. *)
Definition count_matches (gt_boxes : list Box) (pred_boxes : list (Box * Q))
    (Jaccard_min : Q) : Z * Z * Z :=
  match gt_boxes, pred_boxes with
  | [], _ | _, [] =>
      (0, Z.of_nat (length gt_boxes), Z.of_nat (length pred_boxes))
  | _, _ =>
      let st := match_loop gt_boxes Jaccard_min pred_boxes in
      (true_positives st, false_negatives st, false_positives st)
  end.

(** [annotations] and [predictions] are the ["annotated_regions"] of the
    two arguments, the only key the function reads. *)
Definition evaluate_image (annotations predictions : list Region)
    (thr Jaccard_min : Q) : result (Z * Z * Z) :=
  let gt_boxes := map region annotations in
  pred_boxes ← pred_boxes_above predictions thr;
  Ok (count_matches gt_boxes (sort_by_score pred_boxes) Jaccard_min).

(** *** evaluate_pr_naive *)

(** The loop [for gt_img, pred_img in zip(...)], on
    [(total_tp, total_fp, total_fn)]. *)
Fixpoint naive_totals (pairs : list (Image * Image)) (thr Jaccard_min : Q)
    (acc : Z * Z * Z) : result (Z * Z * Z) :=
  match pairs with
  | [] => Ok acc
  | (gt_img, pred_img) :: rest =>
      _ ← naive_pred_boxes (annotated_regions pred_img) thr;
      '(tp, fn, fp) ← evaluate_image (annotated_regions gt_img)
                         (annotated_regions pred_img) thr Jaccard_min;
      let '(total_tp, total_fp, total_fn) := acc in
      naive_totals rest thr Jaccard_min (total_tp + tp, total_fp + fp, total_fn + fn)
  end.

Definition point_of (totals : Z * Z * Z) (thr : Q) : pr_point :=
  let '(total_tp, total_fp, total_fn) := totals in
  {| precision := ratio total_tp (total_tp + total_fp);
     recall := ratio total_tp (total_tp + total_fn);
     threshold := thr |}.

Definition evaluate_pr_naive (annotations predictions : list Image)
    (N : Z) (Jaccard_min : Q) : result (list pr_point) :=
  ths ← thresholds N;
  mapM (λ thr,
          totals ← naive_totals (zip annotations predictions) thr Jaccard_min (0, 0, 0);
          Ok (point_of totals thr))
       ths.

(** *** evaluate_pr *)

(** The dictionary comprehension [sorted_predictions]: a later image
    overwrites an earlier one at the same location. *)
Fixpoint sorted_predictions_from (images : list Image)
    (acc : gmap string (list (Box * Q))) : result (gmap string (list (Box * Q))) :=
  match images with
  | [] => Ok acc
  | img :: rest =>
      boxes ← all_pred_boxes (annotated_regions img);
      sorted_predictions_from rest (<[location img := sort_by_score boxes]> acc)
  end.

Definition sorted_predictions (images : list Image) :=
  sorted_predictions_from images ∅.

(** The loop [for gt_img in annotations['images']]. *)
Fixpoint pr_totals (sorted_preds : gmap string (list (Box * Q)))
    (images : list Image) (thr Jaccard_min : Q)
    (acc : Z * Z * Z) : result (Z * Z * Z) :=
  match images with
  | [] => Ok acc
  | gt_img :: rest =>
      let pred_boxes := default [] (sorted_preds !! location gt_img) in
      let filtered_pred_boxes := filter (above thr) pred_boxes in
      '(tp, fn, fp) ← evaluate_image (annotated_regions gt_img)
                         (map (λ bs, {| region := bs.1; score := Some bs.2 |})
                              filtered_pred_boxes)
                         thr Jaccard_min;
      let '(total_tp, total_fp, total_fn) := acc in
      pr_totals sorted_preds rest thr Jaccard_min
        (total_tp + tp, total_fp + fp, total_fn + fn)
  end.

Definition evaluate_pr (annotations predictions : list Image)
    (N : Z) (Jaccard_min : Q) : result (list pr_point) :=
  ths ← thresholds N;
  let ths := sort_by (λ a b, Qltb b a) ths in
  sorted_preds ← sorted_predictions predictions;
  results_list ←
    mapM (λ thr,
            totals ← pr_totals sorted_preds annotations thr Jaccard_min (0, 0, 0);
            Ok (point_of totals thr))
         ths;
  Ok (sort_by threshold_before results_list).
End Evaluation.

(** ** update_annotations and merge_axle_trees

    The annotation file of the merger has the regions of the evaluation
    with their tags: a region is read through ["tags"], ["region_type"] and
    ["region"], an image through ["location"] and ["annotated_regions"], the
    annotation through ["images"], which may be missing.  [float(v)] is the
    identity on the rationals that stand for the coordinates. *)

Module Merger.

Record Region := mkRegion {
  tags : list string;
  region_type : string;
  region : Box
}.

Record Image := mkImage { location : string; annotated_regions : list Region }.

(** [images] is [None] when the annotation has no ["images"] key. *)
Record Annotation := mkAnnotation { images : option (list Image) }.

(** The two regions appended for a merged box and for a box left alone. *)
Definition grouped_region (merged_box : Box) : Region :=
  {| tags := ["grouped_axles"]; region_type := "Box"; region := merged_box |}.

Definition single_region (single_box : Box) : Region :=
  {| tags := ["single_axle"]; region_type := "Box"; region := single_box |}.

(** ["single_axle" not in region["tags"] and
     "grouped_axles" not in region["tags"]] *)
Definition non_axle (r : Region) : Prop :=
  ("single_axle" ∉ tags r) ∧ ("grouped_axles" ∉ tags r).

Global Instance non_axle_dec r : Decision (non_axle r) :=
  decide (("single_axle" ∉ tags r) ∧ ("grouped_axles" ∉ tags r)).

(** The body of the loop [for image in annotation["images"]] of
    [update_annotations]; the image is updated in place, which leaves its
    location as it was. *)
Definition update_image (merged_boxes_by_image : gmap string merged_image)
    (image : Image) : Image :=
  let image_id := location image in
  let updated_regions := filter non_axle (annotated_regions image) in
  let updated_regions :=
    match merged_boxes_by_image !! image_id with
    | Some merged =>
        updated_regions
          ++ (grouped_region <$> grouped_axles merged)
          ++ (single_region <$> single_axle merged)
    | None => updated_regions
    end in
  {| location := image_id; annotated_regions := updated_regions |}.

Definition update_annotations (annotation : Annotation)
    (merged_boxes_by_image : gmap string merged_image) : result Annotation :=
  match images annotation with
  | None => Raise KeyError
  | Some imgs => Ok {| images := Some (update_image merged_boxes_by_image <$> imgs) |}
  end.

(** [[region["region"] for region in image["annotated_regions"]
      if "single_axle" in region["tags"]]] *)
Definition single_axle_boxes (image : Image) : list Box :=
  region <$> filter (λ r, "single_axle" ∈ tags r) (annotated_regions image).




End Merger.

(** ** Vocabulary of the statements *)

(** [m] is the least, respectively the greatest, of the values [xs]. *)
Definition is_min (m : Q) (xs : list Q) : Prop :=
  m ∈ xs ∧ ∀ x, x ∈ xs → (m <= x)%Q.

Definition is_max (m : Q) (xs : list Q) : Prop :=
  m ∈ xs ∧ ∀ x, x ∈ xs → (x <= m)%Q.

(** [e] is the bounding envelope of the boxes [bs]. *)
Definition is_envelope (e : Box) (bs : list Box) : Prop :=
  is_min (xmin e) (xmin <$> bs) ∧ is_min (ymin e) (ymin <$> bs) ∧
  is_max (xmax e) (xmax <$> bs) ∧ is_max (ymax e) (ymax <$> bs).

(** A state of the sweep over the enumerated boxes [E] in which the groups
    and [remaining_single_axle] split [E], and every merged box is the
    envelope of its group, a seed and at least one more box. *)
Definition sweep_ok (E : list (nat * Box)) (st : sweep) : Prop :=
  NoDup (concat (groups st)).*1 ∧
  (∀ p, p ∈ concat (groups st) → p ∈ E ∧ p.1 ∉ remaining_single_axle st) ∧
  (∀ p, p ∈ E → p.1 ∉ remaining_single_axle st → p ∈ concat (groups st)) ∧
  Forall2 (λ e g, ∃ i box1 js,
             g = (i, box1) :: js ∧ js ≠ [] ∧ e = envelope box1 js.*2)
          (merged_boxes st) (groups st).

(** The filter of [evaluate_image] on a region. *)
Definition passes (thr : Q) (r : Region) : Prop := Qle_bool thr (get_score r) = true.

Global Instance passes_dec thr r : Decision (passes thr r) :=
  decide (Qle_bool thr (get_score r) = true).

(** The boxes of the regions that carry a score, with their scores. *)
Definition scored_boxes (regions : list Region) : list (Box * Q) :=
  omap (λ r, s ← score r; Some (region r, s)) regions.
Arguments scored_boxes : simpl never.

(** Every region of every image carries a score. *)
Definition all_scored (regions : list Region) : Prop :=
  Forall (λ r, is_Some (score r)) regions.
Definition well_scored (images : list Image) : Prop :=
  Forall (λ img, all_scored (annotated_regions img)) images.

(** What an image adds to the totals when every prediction that matters
    carries a score: the counts of the predictions at or above [thr], taken
    by descending score. *)
Definition image_counts (iou : Box → Box → Q) (annotations predictions : list Region)
    (thr Jaccard_min : Q) : Z * Z * Z :=
  count_matches iou (region <$> annotations)
    (sort_by_score (filter (above thr) (scored_boxes predictions))) Jaccard_min.

(** [total_tp += tp; total_fp += fp; total_fn += fn] for the result
    [(tp, fn, fp)] of an image. *)
Definition accumulate (acc : Z * Z * Z) (c : Z * Z * Z) : Z * Z * Z :=
  let '(total_tp, total_fp, total_fn) := acc in
  let '(tp, fn, fp) := c in
  (total_tp + tp, total_fp + fp, total_fn + fn).

(** The regions of the last image of [predictions] at location [loc], none
    when there is no such image. *)
Definition paired_predictions (predictions : list Image) (loc : string) : list Region :=
  match last (filter (λ img, location img = loc) predictions) with
  | Some img => annotated_regions img
  | None => []
  end.

(** The ground-truth boxes a prediction [pred] may be matched to: not yet
    matched, and of IoU at least [Jaccard_min]. *)
Definition candidate (iou : Box → Box → Q) (gt_boxes : list Box)
    (matched : gset (option nat)) (Jaccard_min : Q) (pred : Box)
    (idx : nat) (gt : Box) : Prop :=
  gt_boxes !! idx = Some gt ∧ (Some idx ∉ matched) ∧ (Jaccard_min <= iou pred gt)%Q.

(** The thresholds of a sweep over [N > 0] steps. *)
Definition threshold_list (N : Z) : list Q :=
  (λ i, inject_Z i / inject_Z N)%Q <$> range (N + 1).

(** The totals of [evaluate_pr] at a threshold: every ground-truth image
    against the predictions found at its location. *)
Definition pr_sum (iou : Box → Box → Q) (annotations predictions : list Image)
    (thr Jaccard_min : Q) : Z * Z * Z :=
  fold_left accumulate
    ((λ gt_img, image_counts iou (annotated_regions gt_img)
                  (paired_predictions predictions (location gt_img))
                  thr Jaccard_min) <$> annotations)
    (0, 0, 0).

(** The totals of [evaluate_pr_naive] at a threshold: the images of the two
    documents paired by position, as far as the shorter list goes. *)
Definition naive_sum (iou : Box → Box → Q) (annotations predictions : list Image)
    (thr Jaccard_min : Q) : Z * Z * Z :=
  fold_left accumulate
    ((λ gp : Image * Image,
        image_counts iou (annotated_regions gp.1) (annotated_regions gp.2)
          thr Jaccard_min) <$> zip annotations predictions)
    (0, 0, 0).

(** [b] starts to the right of [xmax a + thr], as [plus] computes it: the
    test of the scan fails for [b] against a group that ends with [a]. *)
Definition left_of (plus : Q → Q → Q) (thr : Q) (a b : Box) : Prop :=
  Qle_bool (xmin b) (plus (xmax a) thr) = false.

(** The invariant of the sweep on what it has put out, the merged boxes
    [ms] and the boxes [ss] passed as single: each list goes from left to
    right, the test of the scan fails between any two boxes, and all of
    them are to the left of the boxes [tail] still to be swept. *)
Definition swept (plus : Q → Q → Q) (thr : Q) (ms ss : list Box)
    (tail : list (nat * Box)) : Prop :=
  StronglySorted (left_of plus thr) ms ∧
  StronglySorted (left_of plus thr) ss ∧
  (∀ g s, g ∈ ms → s ∈ ss → left_of plus thr g s ∨ left_of plus thr s g) ∧
  (∀ o p, o ∈ ms ++ ss → p ∈ tail → left_of plus thr o p.2).



(** A state of the matching over [n] ground-truth boxes in which the
    matched set holds indices of boxes only and every true positive has its
    own. *)
Definition matched_ok (n : nat) (st : tally) : Prop :=
  matched_gt st ⊆ list_to_set (Some <$> seq 0 n) ∧
  true_positives st = Z.of_nat (size (matched_gt st)) ∧
  0 ≤ false_positives st.

(** Every prediction image that [evaluate_pr_naive] pairs with a
    ground-truth image has a score on all its regions. *)
Definition paired_scored (annotations predictions : list Image) : Prop :=
  Forall (λ gp : Image * Image, all_scored (annotated_regions gp.2))
         (zip annotations predictions).





(** * Facts *)

(** ** Rationals *)

Lemma Qltb_lt x y : Qltb x y = true ↔ (x < y)%Q.
Proof.
  unfold Qltb. rewrite negb_true_iff, <- not_true_iff_false, Qle_bool_iff.
  split; [apply Qnot_le_lt | apply Qlt_not_le].
Qed.

Lemma Qltb_ge x y : Qltb x y = false ↔ (y <= x)%Q.
Proof. unfold Qltb. rewrite negb_false_iff. apply Qle_bool_iff. Qed.

Lemma Qltb_irrefl x : Qltb x x = false.
Proof. apply Qltb_ge, Qle_refl. Qed.

(** ** The stable sort *)

Section StableSortFacts.
Context {A : Type} (before : A → A → bool).

Lemma insert_by_perm x l : insert_by before x l ≡ₚ x :: l.
Proof.
  induction l as [|y l IH]; simpl; [done|].
  destruct (before y x); [|done].
  rewrite IH. apply Permutation_swap.
Qed.

Lemma sort_by_perm l : sort_by before l ≡ₚ l.
Proof.
  induction l as [|x l IH]; simpl; [done|].
  by rewrite insert_by_perm, IH.
Qed.

Lemma sort_by_length l : length (sort_by before l) = length l.
Proof. by rewrite sort_by_perm. Qed.

(** An element that every member of [l] strictly precedes goes last. *)
Lemma insert_by_last x l :
  Forall (λ y, before y x = true) l → insert_by before x l = l ++ [x].
Proof.
  induction 1 as [|y l Hy _ IH]; simpl; [done|].
  by rewrite Hy, IH.
Qed.

(** Sorting a list in which every element is strictly preceded by all the
    later ones reverses it. *)
Lemma sort_by_reverse l :
  StronglySorted (λ a b, before b a = true) l → sort_by before l = reverse l.
Proof.
  induction 1 as [|x l _ IH Hx]; simpl; [done|].
  rewrite IH, reverse_cons. apply insert_by_last.
  rewrite Forall_forall in Hx. apply Forall_forall. intros y Hy.
  apply Hx. by apply elem_of_reverse.
Qed.

Lemma insert_by_head x l :
  match l with [] => True | y :: _ => before y x = false end →
  insert_by before x l = x :: l.
Proof. destruct l as [|y l]; simpl; [done|]. by intros ->. Qed.

(** Sorting is the identity on a list that is already in order. *)
Lemma sort_by_ordered_id l : ordered_by before l → sort_by before l = l.
Proof.
  induction 1 as [|x l _ IH Hx]; simpl; [done|].
  rewrite IH. apply insert_by_head.
  destruct l as [|y l]; [done|]. by inversion Hx.
Qed.

Section Order.
Hypothesis before_asym : ∀ a b, before a b = true → before b a = false.
Hypothesis before_trans : ∀ a b c,
  before b a = false → before c b = false → before c a = false.

Lemma insert_by_ordered x l :
  ordered_by before l → ordered_by before (insert_by before x l).
Proof.
  induction 1 as [|y l Hl IH Hy]; simpl.
  - repeat constructor.
  - destruct (before y x) eqn:Hyx.
    + constructor; [done|].
      rewrite insert_by_perm. constructor; [by apply before_asym | done].
    + constructor; [by constructor|].
      constructor; [done|].
      eapply Forall_impl; [exact Hy|]. simpl. eauto.
Qed.

Lemma sort_by_ordered l : ordered_by before (sort_by before l).
Proof.
  induction l as [|x l IH]; simpl; [constructor|].
  by apply insert_by_ordered.
Qed.

(** Filtering commutes with the stable sort. *)
Lemma filter_insert_by (P : A → Prop) `{!∀ x, Decision (P x)} x l :
  ordered_by before l →
  filter P (insert_by before x l) =
    if decide (P x) then insert_by before x (filter P l) else filter P l.
Proof.
  induction 1 as [|y l Hl IH Hy]; simpl.
  - rewrite filter_cons, filter_nil. by destruct (decide (P x)).
  - destruct (before y x) eqn:Hyx.
    + rewrite !(filter_cons _ y), IH.
      destruct (decide (P x)), (decide (P y)); simpl; by rewrite ?Hyx.
    + rewrite (filter_cons _ x), !(filter_cons _ y).
      destruct (decide (P x)); [|done].
      destruct (decide (P y)); simpl; [by rewrite Hyx|].
      symmetry. apply insert_by_head.
      destruct (filter P l) as [|z l'] eqn:Hf; [done|].
      assert (z ∈ filter P l) as Hz by (rewrite Hf; left).
      apply list_elem_of_filter in Hz as [_ Hz].
      rewrite Forall_forall in Hy. eauto.
Qed.

Lemma filter_sort_by (P : A → Prop) `{!∀ x, Decision (P x)} l :
  filter P (sort_by before l) = sort_by before (filter P l).
Proof.
  induction l as [|x l IH]; simpl; [done|].
  rewrite filter_insert_by by apply sort_by_ordered.
  rewrite filter_cons, IH. by destruct (decide (P x)).
Qed.
End Order.

(** In an ordered list, a property passed on to whatever does not come
    strictly after selects a prefix. *)
Lemma ordered_filter_prefix (P : A → Prop) `{!∀ x, Decision (P x)} l :
  ordered_by before l →
  (∀ a b, before b a = false → P b → P a) →
  filter P l `prefix_of` l.
Proof.
  intros Hl HP. induction Hl as [|x l Hl IH Hx].
  - done.
  - rewrite filter_cons. destruct (decide (P x)) as [HPx|HPx].
    + by apply prefix_cons.
    + replace (filter P l) with (@nil A); [apply prefix_nil|].
      destruct (filter P l) as [|y l'] eqn:Hf; [done|].
      assert (y ∈ filter P l) as Hy by (rewrite Hf; left).
      apply list_elem_of_filter in Hy as [HPy Hy].
      rewrite Forall_forall in Hx. destruct HPx. eauto.
Qed.
End StableSortFacts.

(** ** enumerate, min and max *)

Lemma enum_from_fst {A} k (l : list A) : (enum_from k l).*1 = seq k (length l).
Proof. revert k. induction l as [|x l IH]; intros k; simpl; [done|]. by rewrite IH. Qed.

Lemma enum_from_snd {A} k (l : list A) : (enum_from k l).*2 = l.
Proof. revert k. induction l as [|x l IH]; intros k; simpl; [done|]. by rewrite IH. Qed.

Lemma enumerate_NoDup {A} (l : list A) : NoDup (enumerate l).*1.
Proof. unfold enumerate. rewrite enum_from_fst. apply NoDup_seq. Qed.

Lemma py_min2_spec a b :
  (py_min2 a b = a ∨ py_min2 a b = b) ∧ (py_min2 a b <= a)%Q ∧ (py_min2 a b <= b)%Q.
Proof.
  unfold py_min2. destruct (Qltb b a) eqn:E.
  - apply Qltb_lt in E. split; [by right|]. split; [by apply Qlt_le_weak | apply Qle_refl].
  - apply Qltb_ge in E. split; [by left|]. split; [apply Qle_refl | done].
Qed.

Lemma py_max2_spec a b :
  (py_max2 a b = a ∨ py_max2 a b = b) ∧ (a <= py_max2 a b)%Q ∧ (b <= py_max2 a b)%Q.
Proof.
  unfold py_max2. destruct (Qltb a b) eqn:E.
  - apply Qltb_lt in E. split; [by right|]. split; [by apply Qlt_le_weak | apply Qle_refl].
  - apply Qltb_ge in E. split; [by left|]. split; [apply Qle_refl | done].
Qed.

Lemma py_min_is_min x xs : is_min (py_min x xs) (x :: xs).
Proof.
  unfold py_min. revert x. induction xs as [|y xs IH]; intros x; simpl.
  - split; [left|]. intros z Hz. apply list_elem_of_singleton in Hz as ->. apply Qle_refl.
  - destruct (IH (py_min2 x y)) as [Hin Hle].
    destruct (py_min2_spec x y) as (Hor & Hx & Hy).
    split.
    + apply elem_of_cons in Hin as [Hin|Hin].
      * rewrite Hin. destruct Hor as [->| ->]; [left | right; left].
      * by do 2 right.
    + intros z Hz.
      assert (fold_left py_min2 xs (py_min2 x y) <= py_min2 x y)%Q as Hm
        by (apply Hle; left).
      apply elem_of_cons in Hz as [->|Hz]; [by eapply Qle_trans|].
      apply elem_of_cons in Hz as [->|Hz]; [by eapply Qle_trans|].
      apply Hle. by right.
Qed.

Lemma py_max_is_max x xs : is_max (py_max x xs) (x :: xs).
Proof.
  unfold py_max. revert x. induction xs as [|y xs IH]; intros x; simpl.
  - split; [left|]. intros z Hz. apply list_elem_of_singleton in Hz as ->. apply Qle_refl.
  - destruct (IH (py_max2 x y)) as [Hin Hle].
    destruct (py_max2_spec x y) as (Hor & Hx & Hy).
    split.
    + apply elem_of_cons in Hin as [Hin|Hin].
      * rewrite Hin. destruct Hor as [->| ->]; [left | right; left].
      * by do 2 right.
    + intros z Hz.
      assert (py_max2 x y <= fold_left py_max2 xs (py_max2 x y))%Q as Hm
        by (apply Hle; left).
      apply elem_of_cons in Hz as [->|Hz]; [by eapply Qle_trans|].
      apply elem_of_cons in Hz as [->|Hz]; [by eapply Qle_trans|].
      apply Hle. by right.
Qed.

Lemma envelope_is_envelope box1 bs : is_envelope (envelope box1 bs) (box1 :: bs).
Proof.
  unfold is_envelope, envelope; simpl.
  repeat split; try apply py_min_is_min; apply py_max_is_max.
Qed.

(** ** The order of the sort by [xmin] *)

Lemma xmin_before_asym a b : xmin_before a b = true → xmin_before b a = false.
Proof.
  unfold xmin_before. rewrite Qltb_lt, Qltb_ge. apply Qlt_le_weak.
Qed.

Lemma xmin_before_trans a b c :
  xmin_before b a = false → xmin_before c b = false → xmin_before c a = false.
Proof. unfold xmin_before. rewrite !Qltb_ge. apply Qle_trans. Qed.

Lemma StronglySorted_mono {A} (R S : A → A → Prop) l :
  (∀ a b, R a b → S a b) → StronglySorted R l → StronglySorted S l.
Proof.
  intros HRS. induction 1 as [|x l _ IH Hx]; constructor; [done|].
  eapply Forall_impl; [exact Hx|]. auto.
Qed.

Lemma sort_by_xmin_ascending boxes :
  StronglySorted (λ a b, (xmin a <= xmin b)%Q) (sort_by_xmin boxes).
Proof.
  eapply StronglySorted_mono;
    [|apply (sort_by_ordered xmin_before xmin_before_asym xmin_before_trans)].
  intros a b. unfold xmin_before. by rewrite Qltb_ge.
Qed.

(** ** The scan of one seed *)

Section SweepFacts.
Variable plus : Q → Q → Q.

Lemma scan_fold thr rest st0 :
  ∃ js,
    joined (fold_left (scan_step plus thr) rest st0) = joined st0 ++ js ∧
    js `sublist_of` rest ∧
    Forall (λ jb, jb.1 ∈ remaining st0) js ∧
    remaining (fold_left (scan_step plus thr) rest st0)
      = remaining st0 ∖ list_to_set js.*1 ∧
    current_xmax (fold_left (scan_step plus thr) rest st0)
      = py_max (current_xmax st0) (xmax <$> js.*2).
Proof.
  revert st0. induction rest as [|[j box2] rest IH]; intros st0; simpl.
  - exists []. rewrite app_nil_r. repeat split; [done|constructor|set_solver].
  - destruct (IH (scan_step plus thr st0 (j, box2))) as (js & Hj & Hsub & Hin & Hrem & Hcur).
    unfold scan_step in *.
    destruct (bool_decide (j ∈ remaining st0)) eqn:Hjr;
      [destruct (Qle_bool (xmin box2) (plus (current_xmax st0) thr))|].
    + apply bool_decide_eq_true in Hjr. simpl in *.
      exists ((j, box2) :: js). rewrite Hj, Hrem, Hcur, <- app_assoc. simpl.
      repeat split; [by constructor| |set_solver].
      constructor; [done|]. eapply Forall_impl; [exact Hin|]. set_solver.
    + exists js. repeat split; [done|by constructor|done..].
    + exists js. repeat split; [done|by constructor|done..].
Qed.

(** ** The sweep *)

Lemma NoDup_fst_eq {A} (l : list (nat * A)) p q :
  NoDup l.*1 → p ∈ l → q ∈ l → p.1 = q.1 → p = q.
Proof.
  intros Hnd Hp Hq Hpq.
  apply list_elem_of_lookup in Hp as [i1 H1], Hq as [i2 H2].
  assert (i1 = i2) as ->; [|congruence].
  eapply NoDup_lookup; [exact Hnd| |]; rewrite list_lookup_fmap.
  - by rewrite H1.
  - by rewrite H2, Hpq.
Qed.

Lemma sweep_loop_ok thr E boxes st :
  NoDup E.*1 → NoDup boxes.*1 → (∀ p, p ∈ boxes → p ∈ E) →
  sweep_ok E st → sweep_ok E (sweep_loop plus thr boxes st).
Proof.
  intros HE. revert st.
  induction boxes as [|[i box1] rest IH]; intros st Hnd Hsub Hok; simpl; [done|].
  assert (NoDup rest.*1 ∧ i ∉ rest.*1) as [Hnd' Hi].
  { simpl in Hnd. apply NoDup_cons in Hnd. tauto. }
  assert (∀ p, p ∈ rest → p ∈ E) as Hsub' by (intros; apply Hsub; by right).
  destruct (bool_decide (i ∈ remaining_single_axle st)) eqn:Hir; [|by apply IH].
  apply bool_decide_eq_true in Hir. unfold scan_from.
  destruct (scan_fold thr rest
              {| joined := []; remaining := remaining_single_axle st;
                 current_xmax := xmax box1 |})
    as (js & Hj & Hjs & Hin & Hrem & _).
  simpl in Hj, Hin, Hrem. rewrite Hj, Hrem.
  destruct Hok as (Hnodup & Hgr & Hcov & Hmerged).
  destruct (decide (js = [])) as [->|Hne]; simpl.
  - apply IH; [done..|]. split; [|split; [|split]]; simpl; [done| | |done].
    + intros p Hp. destruct (Hgr p Hp). set_solver.
    + intros p Hp Hnp. apply Hcov; [done|]. set_solver.
  - assert ((1 <? S (length js))%nat = true) as ->
      by (destruct js; [done|reflexivity]).
    apply IH; [done..|]. rename js into g.
    assert (∀ q, q ∈ g → q ∈ rest) as Hgrest
      by (intros q Hq; by eapply elem_of_sublist).
    assert (∀ q, q ∈ g → q.1 ∈ remaining_single_axle st) as Hgrem
      by (by apply Forall_forall).
    split; [|split; [|split]]; simpl.
    + rewrite concat_app, fmap_app. simpl. rewrite app_nil_r.
      apply NoDup_app. split; [done|]. split.
      * intros k Hk Hk'.
        apply list_elem_of_fmap in Hk as (p & -> & Hp).
        destruct (Hgr p Hp) as [_ Hnp].
        apply elem_of_cons in Hk' as [Hk'|Hk']; [congruence|].
        apply list_elem_of_fmap in Hk' as (q & Hpq & Hq).
        rewrite Hpq in Hnp. auto.
      * apply NoDup_cons. split.
        -- intros Hk. apply Hi.
           apply list_elem_of_fmap in Hk as (q & -> & Hq).
           apply list_elem_of_fmap. eauto.
        -- eapply sublist_NoDup; [exact Hnd'|]. by apply fmap_sublist.
    + intros p Hp.
      rewrite concat_app in Hp. simpl in Hp. rewrite app_nil_r in Hp.
      assert (p ∈ g → p.1 ∈ g.*1) as Hfst by (apply list_elem_of_fmap_2).
      apply elem_of_app in Hp as [Hp|Hp].
      * destruct (Hgr p Hp). set_solver.
      * apply elem_of_cons in Hp as [->|Hp].
        -- split; [apply Hsub; left | set_solver].
        -- split; [auto | set_solver].
    + intros p Hp Hnp.
      rewrite concat_app. simpl. rewrite app_nil_r. apply elem_of_app.
      destruct (decide (p.1 ∈ remaining_single_axle st)) as [Hpr|Hpr];
        [right | left; by apply Hcov].
      destruct (decide (p.1 = i)) as [Hpi|Hpi].
      * apply elem_of_cons. left.
        apply (NoDup_fst_eq E); [done|done|apply Hsub; left|done].
      * apply elem_of_cons. right.
        assert (p.1 ∈ g.*1) as Hpg.
        { apply dec_stable. intros Hn. apply Hnp.
          rewrite !elem_of_difference, elem_of_list_to_set, elem_of_singleton.
          done. }
        apply list_elem_of_fmap in Hpg as (q & Hpq & Hq).
        replace p with q; [done|].
        apply (NoDup_fst_eq E); auto.
    + apply Forall2_app; [done|]. constructor; [|constructor].
      by exists i, box1, g.
Qed.

Lemma enumerate_sorted_fst boxes :
  (enumerate (sort_by_xmin boxes)).*1 = seq 0 (length boxes).
Proof.
  unfold enumerate, sort_by_xmin. by rewrite enum_from_fst, sort_by_length.
Qed.

Lemma sweep_image_ok boxes thr :
  sweep_ok (enumerate (sort_by_xmin boxes)) (sweep_image plus boxes thr).
Proof.
  apply sweep_loop_ok; [apply enumerate_NoDup..|done|].
  split; [|split; [|split]]; simpl; [constructor|set_solver| |constructor].
  intros p Hp Hnp. destruct Hnp.
  apply elem_of_list_to_set. rewrite <- enumerate_sorted_fst.
  apply list_elem_of_fmap. eauto.
Qed.

Lemma sweep_partition boxes thr :
  concat (groups (sweep_image plus boxes thr))
    ++ select_remaining (remaining_single_axle (sweep_image plus boxes thr))
         (enumerate (sort_by_xmin boxes))
  ≡ₚ enumerate (sort_by_xmin boxes).
Proof.
  destruct (sweep_image_ok boxes thr) as (Hnodup & Hgr & Hcov & _).
  set (E := enumerate (sort_by_xmin boxes)) in *.
  set (st := sweep_image plus boxes thr) in *.
  assert (NoDup E) as HE by (eapply NoDup_fmap_1, enumerate_NoDup).
  unfold select_remaining. apply NoDup_Permutation; [|done|].
  - apply NoDup_app. split; [by eapply NoDup_fmap_1|].
    split; [|by apply NoDup_filter].
    intros p Hp Hp'. apply list_elem_of_filter in Hp' as [Hp' _].
    by destruct (Hgr p Hp).
  - intros p. rewrite elem_of_app, list_elem_of_filter. split.
    + intros [Hp|[_ Hp]]; [by apply Hgr | done].
    + intros Hp.
      destruct (decide (p.1 ∈ remaining_single_axle st)); [by right | left; auto].
Qed.

Lemma Forall2_impl_elem {A B} (P R : A → B → Prop) l k :
  Forall2 P l k → (∀ x y, y ∈ k → P x y → R x y) → Forall2 R l k.
Proof.
  induction 1 as [|x y l k Hxy _ IH]; intros HPR; constructor.
  - apply HPR; [left | done].
  - apply IH. intros x' y' Hy'. apply HPR. by right.
Qed.

Lemma elem_of_concat {A} (x : A) (l : list A) (ls : list (list A)) :
  x ∈ l → l ∈ ls → x ∈ concat ls.
Proof.
  intros Hx. induction 1 as [|l' l'' ls Hl IH]; simpl; apply elem_of_app; auto.
Qed.

Lemma merge_boxes_lookup (m : gmap string (list Box)) thr image_id :
  merge_boxes plus m thr !! image_id = (λ boxes, merge_image plus boxes thr) <$> m !! image_id.
Proof. unfold merge_boxes. apply lookup_fmap. Qed.

(** C3.  For every map of boxes and every image of it, what [merge_boxes]
    returns for the image partitions the boxes of the image.  With the
    sorted boxes numbered from 0, every numbered box occurs exactly once in
    the list made of the members of the groups followed by the boxes
    selected for [single_axle]; the boxes of [grouped_axles] are, one for
    one and in order, the envelopes of the groups; [single_axle] holds its
    boxes unchanged; as lists of boxes, the members of the groups together
    with [single_axle] are a permutation of the input. *)
Theorem merge_boxes_partition (single_axle_boxes_by_image : gmap string (list Box))
    (overlap_threshold : Q) (image_id : string) (boxes : list Box) :
  single_axle_boxes_by_image !! image_id = Some boxes →
  let E := enumerate (sort_by_xmin boxes) in
  let st := sweep_image plus boxes overlap_threshold in
  let singles := select_remaining (remaining_single_axle st) E in
  ∃ out,
    merge_boxes plus single_axle_boxes_by_image overlap_threshold !! image_id = Some out ∧
    E.*1 = seq 0 (length boxes) ∧ E.*2 ≡ₚ boxes ∧
    concat (groups st) ++ singles ≡ₚ E ∧
    Forall2 (λ e g, ∃ i box1 js, g = (i, box1) :: js ∧ e = envelope box1 js.*2)
            (grouped_axles out) (groups st) ∧
    single_axle out = singles.*2 ∧
    (concat (groups st)).*2 ++ single_axle out ≡ₚ boxes.
Proof.
  intros Hm E st singles. exists (merge_image plus boxes overlap_threshold).
  assert (E.*2 ≡ₚ boxes) as HE2.
  { unfold E, enumerate. rewrite enum_from_snd. apply sort_by_perm. }
  split; [by rewrite merge_boxes_lookup, Hm|].
  split; [apply enumerate_sorted_fst|].
  split; [done|].
  split; [apply sweep_partition|].
  split.
  - destruct (sweep_image_ok boxes overlap_threshold) as (_ & _ & _ & Hmerged).
    eapply Forall2_impl; [exact Hmerged|]. simpl.
    intros e g (i & box1 & js & -> & _ & ->). eauto.
  - split; [done|]. simpl. fold E st singles.
    rewrite <- fmap_app, <- HE2. apply fmap_Permutation, sweep_partition.
Qed.

(** C4.  Every box of [grouped_axles] is the bounding envelope of its
    group: its [xmin] and [ymin] are the least [xmin] and [ymin] of the
    members, its [xmax] and [ymax] the greatest [xmax] and [ymax]; the
    group has at least two members, all of them boxes of the input. *)
Theorem merged_box_is_envelope (boxes : list Box) (overlap_threshold : Q) :
  Forall2 (λ e g, (2 ≤ length g)%nat ∧ is_envelope e g.*2 ∧
                  ∀ b, b ∈ g.*2 → b ∈ boxes)
          (grouped_axles (merge_image plus boxes overlap_threshold))
          (groups (sweep_image plus boxes overlap_threshold)).
Proof.
  destruct (sweep_image_ok boxes overlap_threshold) as (_ & Hgr & _ & Hmerged).
  simpl. eapply Forall2_impl_elem; [exact Hmerged|]. simpl.
  intros e g Hg (i & box1 & js & -> & Hjs & ->).
  split; [destruct js; [done | simpl; lia]|].
  split; [apply envelope_is_envelope|].
  intros b Hb. apply list_elem_of_fmap in Hb as (p & -> & Hp).
  assert (p ∈ enumerate (sort_by_xmin boxes)) as HpE.
  { apply Hgr. eapply elem_of_concat; [exact Hp|exact Hg]. }
  assert (p.2 ∈ (enumerate (sort_by_xmin boxes)).*2) as Hp2
    by (by apply list_elem_of_fmap_2).
  unfold enumerate in Hp2. rewrite enum_from_snd in Hp2.
  unfold sort_by_xmin in Hp2. by rewrite sort_by_perm in Hp2.
Qed.

End SweepFacts.

Lemma merge_boxes_partition_witness :
  ∃ out,
    merge_boxes Qplus {[ "img" := [mkBox 12 0 20 4; mkBox 40 0 50 4; mkBox 0 0 10 4;
                             mkBox 19 1 30 5] ]} 0.01 !! "img" = Some out ∧
    grouped_axles out = [mkBox 12 0 30 5] ∧
    single_axle out = [mkBox 0 0 10 4; mkBox 40 0 50 4].
Proof.
  assert (({[ "img" := [mkBox 12 0 20 4; mkBox 40 0 50 4; mkBox 0 0 10 4;
                        mkBox 19 1 30 5] ]} : gmap string (list Box)) !! "img"
          = Some [mkBox 12 0 20 4; mkBox 40 0 50 4; mkBox 0 0 10 4;
                  mkBox 19 1 30 5]) as Hm by (vm_compute; reflexivity).
  destruct (merge_boxes_partition Qplus _ 0.01 _ _ Hm) as (out & Hout & _).
  exists out. split; [exact Hout|].
  vm_compute in Hout. injection Hout as <-. split; reflexivity.
Defined.

(** ** The order of the sort by score *)

Lemma score_before_asym a b : score_before a b = true → score_before b a = false.
Proof. unfold score_before. rewrite Qltb_lt, Qltb_ge. apply Qlt_le_weak. Qed.

Lemma score_before_trans a b c :
  score_before b a = false → score_before c b = false → score_before c a = false.
Proof. unfold score_before. rewrite !Qltb_ge. intros H1 H2. by eapply Qle_trans. Qed.

Lemma sort_by_score_ordered l : ordered_by score_before (sort_by_score l).
Proof. apply sort_by_ordered; [apply score_before_asym | apply score_before_trans]. Qed.

Lemma filter_sort_by_score (P : Box * Q → Prop) `{!∀ x, Decision (P x)} l :
  filter P (sort_by_score l) = sort_by_score (filter P l).
Proof. apply filter_sort_by; [apply score_before_asym | apply score_before_trans]. Qed.

Lemma sort_by_score_idem l : sort_by_score (sort_by_score l) = sort_by_score l.
Proof. apply sort_by_ordered_id, sort_by_score_ordered. Qed.

Lemma above_mono t1 t2 bs : (t1 <= t2)%Q → above t2 bs → above t1 bs.
Proof. unfold above. rewrite !Qle_bool_iff. intros. by eapply Qle_trans. Qed.

(** At a higher threshold the predictions kept, once sorted, are the first
    of those kept at a lower one. *)
Lemma sorted_above_prefix t1 t2 l :
  (t1 <= t2)%Q →
  sort_by_score (filter (above t2) l)
    `prefix_of` sort_by_score (filter (above t1) l).
Proof.
  intros Ht.
  rewrite <- (list_filter_filter_l (above t2) (above t1))
    by (intros bs; by apply above_mono).
  rewrite <- filter_sort_by_score.
  apply (ordered_filter_prefix score_before); [apply sort_by_score_ordered|].
  intros a b Hab. unfold score_before in Hab. apply Qltb_ge in Hab.
  unfold above. rewrite !Qle_bool_iff. intros. by eapply Qle_trans.
Qed.

(** ** The filter of [evaluate_image] *)

Lemma scored_boxes_cons_Some r rs s :
  score r = Some s → scored_boxes (r :: rs) = (region r, s) :: scored_boxes rs.
Proof. intros Hs. unfold scored_boxes. simpl. by rewrite Hs. Qed.

Lemma scored_boxes_cons_None r rs :
  score r = None → scored_boxes (r :: rs) = scored_boxes rs.
Proof. intros Hs. unfold scored_boxes. simpl. by rewrite Hs. Qed.

Lemma pred_boxes_above_cons r rs thr :
  pred_boxes_above (r :: rs) thr =
    if Qle_bool thr (get_score r) then
      s ← lookup_score r; tl ← pred_boxes_above rs thr; Ok ((region r, s) :: tl)
    else pred_boxes_above rs thr.
Proof. reflexivity. Qed.

Lemma pred_boxes_above_spec regions thr :
  match pred_boxes_above regions thr with
  | Ok l =>
      l = filter (above thr) (scored_boxes regions) ∧
      length l = length (filter (passes thr) regions)
  | Raise e =>
      e = KeyError ∧ (thr <= 0)%Q ∧ ∃ r, r ∈ regions ∧ score r = None
  end.
Proof.
  induction regions as [|r rs IH]; [done|].
  rewrite pred_boxes_above_cons.
  assert (match pred_boxes_above rs thr with
          | Ok _ => True
          | Raise e => e = KeyError ∧ (thr <= 0)%Q ∧
                       ∃ r', r' ∈ r :: rs ∧ score r' = None
          end) as Hraise.
  { destruct (pred_boxes_above rs thr); [done|].
    destruct IH as (-> & Hthr & r' & Hr' & Hnone).
    repeat split; [done|]. exists r'. split; [by right | done]. }
  destruct (Qle_bool thr (get_score r)) eqn:Hp.
  - rewrite (filter_cons_True (passes thr)) by done.
    unfold lookup_score. destruct (score r) as [s|] eqn:Hs.
    + rewrite (scored_boxes_cons_Some r rs s Hs).
      assert (above thr (region r, s)) as Ha.
      { unfold above. simpl. unfold get_score in Hp. by rewrite Hs in Hp. }
      rewrite (filter_cons_True (above thr)) by done.
      destruct (pred_boxes_above rs thr) as [l|e]; simpl; [|done].
      destruct IH as [-> IH]. by rewrite IH.
    + unfold get_score in Hp. rewrite Hs in Hp. simpl in Hp. simpl.
      repeat split; [by apply Qle_bool_iff|]. exists r. split; [left | done].
  - rewrite (filter_cons_False (passes thr)) by (unfold passes; by rewrite Hp).
    destruct (score r) as [s|] eqn:Hs.
    + rewrite (scored_boxes_cons_Some r rs s Hs).
      rewrite (filter_cons_False (above thr)).
      * by destruct (pred_boxes_above rs thr).
      * unfold above. simpl. unfold get_score in Hp. rewrite Hs in Hp.
        simpl in Hp. by rewrite Hp.
    + rewrite (scored_boxes_cons_None r rs Hs).
      by destruct (pred_boxes_above rs thr).
Qed.

Lemma pred_boxes_above_scored regions thr :
  all_scored regions →
  pred_boxes_above regions thr = Ok (filter (above thr) (scored_boxes regions)).
Proof.
  intros Hall. pose proof (pred_boxes_above_spec regions thr) as H.
  destruct (pred_boxes_above regions thr) as [l|e]; [by destruct H as [-> _]|].
  destruct H as (_ & _ & r & Hr & Hnone).
  unfold all_scored in Hall. rewrite Forall_forall in Hall.
  destruct (Hall r Hr) as [s Hs]. congruence.
Qed.

Lemma pred_boxes_above_raise regions thr :
  pred_boxes_above regions thr = Ok (filter (above thr) (scored_boxes regions)) ∨
  pred_boxes_above regions thr = Raise KeyError.
Proof.
  pose proof (pred_boxes_above_spec regions thr) as H.
  destruct (pred_boxes_above regions thr) as [l|e].
  - left. by destruct H as [-> _].
  - right. by destruct H as [-> _].
Qed.

(** A threshold at which the filter succeeds, and any higher one. *)
Lemma pred_boxes_above_ok regions thr l :
  pred_boxes_above regions thr = Ok l →
  ∀ r, r ∈ regions → score r = None → ¬ (thr <= 0)%Q.
Proof.
  revert l. induction regions as [|r' rs IH]; intros l Hl r Hr Hnone Hthr.
  - by apply elem_of_nil in Hr.
  - rewrite pred_boxes_above_cons in Hl.
    apply elem_of_cons in Hr as [->|Hr].
    + unfold get_score, lookup_score in Hl. rewrite Hnone in Hl. simpl in Hl.
      apply Qle_bool_iff in Hthr. by rewrite Hthr in Hl.
    + destruct (pred_boxes_above rs thr) as [l'|e] eqn:Hrs; [by eapply IH|].
      destruct (Qle_bool thr (get_score r')); [|done].
      by destruct (lookup_score r').
Qed.

Lemma pred_boxes_above_higher regions t1 t2 l :
  (t1 <= t2)%Q → pred_boxes_above regions t1 = Ok l →
  pred_boxes_above regions t2 = Ok (filter (above t2) (scored_boxes regions)).
Proof.
  intros Ht H1.
  destruct (pred_boxes_above_raise regions t2) as [H2|H2]; [done|].
  pose proof (pred_boxes_above_spec regions t2) as Hs2. rewrite H2 in Hs2.
  destruct Hs2 as (_ & Ht2 & r & Hr & Hnone).
  destruct (pred_boxes_above_ok regions t1 l H1 r Hr Hnone).
  by eapply Qle_trans.
Qed.

Lemma passes_filter_length t1 t2 regions :
  (t1 <= t2)%Q →
  (length (filter (passes t2) regions) ≤ length (filter (passes t1) regions))%nat.
Proof.
  intros Ht. induction regions as [|r rs IH]; [done|].
  rewrite !filter_cons.
  destruct (decide (passes t2 r)) as [H2|H2].
  - rewrite decide_True; [simpl; lia|].
    unfold passes in *. rewrite Qle_bool_iff in *. by eapply Qle_trans.
  - destruct (decide (passes t1 r)); simpl; lia.
Qed.

(** ** The counters of the matching *)

Section MatchingFacts.
Variable iou : Box → Box → Q.

Lemma match_step_counts gt_boxes Jaccard_min st ps :
  let st' := match_step iou gt_boxes Jaccard_min st ps in
  true_positives st' + false_positives st'
    = true_positives st + false_positives st + 1 ∧
  true_positives st' + false_negatives st'
    = true_positives st + false_negatives st ∧
  true_positives st ≤ true_positives st'.
Proof.
  unfold match_step.
  destruct (best_match iou gt_boxes (matched_gt st) ps.1) as [best_iou best_gt_idx].
  destruct (Qle_bool Jaccard_min best_iou && bool_decide (best_gt_idx ∉ matched_gt st));
    simpl; lia.
Qed.

Lemma match_fold_counts gt_boxes Jaccard_min pred_boxes st :
  let st' := fold_left (match_step iou gt_boxes Jaccard_min) pred_boxes st in
  true_positives st' + false_positives st'
    = true_positives st + false_positives st + Z.of_nat (length pred_boxes) ∧
  true_positives st' + false_negatives st'
    = true_positives st + false_negatives st ∧
  true_positives st ≤ true_positives st'.
Proof.
  revert st. induction pred_boxes as [|ps l IH]; intros st; simpl; [lia|].
  specialize (IH (match_step iou gt_boxes Jaccard_min st ps)).
  pose proof (match_step_counts gt_boxes Jaccard_min st ps). simpl in *. lia.
Qed.

Lemma count_matches_counts gt_boxes pred_boxes Jaccard_min :
  ∀ tp fn fp, count_matches iou gt_boxes pred_boxes Jaccard_min = (tp, fn, fp) →
  tp + fn = Z.of_nat (length gt_boxes) ∧
  tp + fp = Z.of_nat (length pred_boxes) ∧
  0 ≤ tp ∧
  (gt_boxes = [] ∨ pred_boxes = [] →
   tp = 0 ∧ fn = Z.of_nat (length gt_boxes) ∧ fp = Z.of_nat (length pred_boxes)).
Proof.
  intros tp fn fp. unfold count_matches.
  destruct gt_boxes as [|g gs]; [intros [= <- <- <-]; simpl; lia|].
  destruct pred_boxes as [|ps l]; [intros [= <- <- <-]; simpl; lia|].
  intros [= <- <- <-]. unfold match_loop.
  pose proof (match_fold_counts (g :: gs) Jaccard_min (ps :: l)
                {| true_positives := 0; false_positives := 0;
                   false_negatives := Z.of_nat (length (g :: gs));
                   matched_gt := ∅ |}) as H.
  cbv zeta in H. cbn [true_positives false_positives false_negatives] in H.
  destruct H as (H1 & H2 & H3).
  split; [lia|]. split; [lia|]. split; [lia|]. intros [?|?]; congruence.
Qed.

(** The true positives of a prefix of the predictions are among those of
    the whole list. *)
Lemma count_matches_prefix gt_boxes l1 l2 Jaccard_min :
  l1 `prefix_of` l2 →
  (count_matches iou gt_boxes l1 Jaccard_min).1.1
    ≤ (count_matches iou gt_boxes l2 Jaccard_min).1.1.
Proof.
  intros [k ->].
  destruct (count_matches iou gt_boxes (l1 ++ k) Jaccard_min) as [[tp2 fn2] fp2] eqn:H2.
  pose proof (count_matches_counts _ _ _ _ _ _ H2) as (_ & _ & Hpos & _).
  unfold count_matches in *.
  destruct gt_boxes as [|g gs]; [simpl; congruence|].
  destruct l1 as [|ps l1]; [simpl; lia|].
  simpl app in H2. injection H2 as <- _ _. unfold match_loop.
  change (ps :: l1 ++ k) with ((ps :: l1) ++ k). rewrite fold_left_app.
  cbn [fst].
  apply (match_fold_counts (g :: gs) Jaccard_min k).
Qed.
End MatchingFacts.

(** C7.  Whenever [evaluate_image] returns, TP + FN is the number of
    ground-truth regions and TP + FP is the number of predictions that pass
    the filter on the score; when either list is empty the result is TP = 0,
    FN the number of ground-truth regions and FP the number of filtered
    predictions.  The only way not to return is the KeyError of a prediction
    without a score that passes the filter, at a threshold of 0 or less. *)
Theorem evaluate_image_saturation (iou : Box → Box → Q)
    (annotations predictions : list Region) (thr Jaccard_min : Q) :
  match evaluate_image iou annotations predictions thr Jaccard_min with
  | Ok (tp, fn, fp) =>
      tp + fn = Z.of_nat (length annotations) ∧
      tp + fp = Z.of_nat (length (filter (passes thr) predictions)) ∧
      (annotations = [] ∨ filter (passes thr) predictions = [] →
       tp = 0 ∧ fn = Z.of_nat (length annotations) ∧
       fp = Z.of_nat (length (filter (passes thr) predictions)))
  | Raise e =>
      e = KeyError ∧ (thr <= 0)%Q ∧ ∃ r, r ∈ predictions ∧ score r = None
  end.
Proof.
  unfold evaluate_image.
  pose proof (pred_boxes_above_spec predictions thr) as Hspec.
  destruct (pred_boxes_above predictions thr) as [l|e]; simpl; [|done].
  destruct Hspec as [_ Hlen].
  destruct (count_matches iou (map region annotations) (sort_by_score l) Jaccard_min)
    as [[tp fn] fp] eqn:Hc.
  apply count_matches_counts in Hc as (Hgt & Hpred & _ & Hempty).
  rewrite length_map in Hgt, Hempty.
  unfold sort_by_score in Hpred, Hempty. rewrite sort_by_length, Hlen in *.
  split; [done|]. split; [done|]. intros Hor. apply Hempty.
  destruct Hor as [->|Hor]; [by left | right].
  rewrite Hor in Hlen. by destruct l.
Qed.

Lemma evaluate_image_counts iou annotations predictions thr Jaccard_min c :
  evaluate_image iou annotations predictions thr Jaccard_min = Ok c →
  c = image_counts iou annotations predictions thr Jaccard_min.
Proof.
  unfold evaluate_image, image_counts.
  pose proof (pred_boxes_above_spec predictions thr) as Hspec.
  destruct (pred_boxes_above predictions thr) as [l|e]; simpl; [|done].
  destruct Hspec as [-> _]. by intros [= <-].
Qed.

(** C8.  For fixed ground truth, predictions and [Jaccard_min], and
    thresholds [t1 <= t2]: if [evaluate_image] returns at [t1] then it
    returns at [t2], with no more true positives, and no more predictions
    pass the filter at [t2] than at [t1]. *)
Theorem evaluate_image_monotone (iou : Box → Box → Q)
    (annotations predictions : list Region) (t1 t2 Jaccard_min : Q)
    (tp1 fn1 fp1 : Z) :
  (t1 <= t2)%Q →
  evaluate_image iou annotations predictions t1 Jaccard_min = Ok (tp1, fn1, fp1) →
  ∃ tp2 fn2 fp2,
    evaluate_image iou annotations predictions t2 Jaccard_min = Ok (tp2, fn2, fp2) ∧
    tp2 ≤ tp1 ∧
    (length (filter (passes t2) predictions)
       ≤ length (filter (passes t1) predictions))%nat.
Proof.
  intros Ht H1.
  pose proof (evaluate_image_counts _ _ _ _ _ _ H1) as Hc1.
  unfold evaluate_image in *.
  destruct (pred_boxes_above predictions t1) as [l1|] eqn:Hl1; [|done].
  rewrite (pred_boxes_above_higher predictions t1 t2 l1 Ht Hl1). simpl.
  destruct (count_matches iou (map region annotations)
              (sort_by_score (filter (above t2) (scored_boxes predictions)))
              Jaccard_min) as [[tp2 fn2] fp2] eqn:Hc2.
  exists tp2, fn2, fp2. split; [done|]. split; [|by apply passes_filter_length].
  pose proof (count_matches_prefix iou (map region annotations) _ _ Jaccard_min
                (sorted_above_prefix t1 t2 (scored_boxes predictions) Ht)) as Hle.
  rewrite Hc2 in Hle. unfold image_counts in Hc1.
  change (region <$> annotations) with (map region annotations) in Hc1.
  rewrite <- Hc1 in Hle. exact Hle.
Qed.

Lemma evaluate_image_monotone_witness :
  ∃ tp2 fn2 fp2,
    evaluate_image calculate_iou
      [mkRegion (mkBox 0 0 10 10) None; mkRegion (mkBox 20 20 30 30) None]
      [mkRegion (mkBox 0 0 10 10) (Some 0.9%Q);
       mkRegion (mkBox 20 20 30 30) (Some 0.4%Q);
       mkRegion (mkBox 50 50 60 60) None]
      0.5 0.5 = Ok (tp2, fn2, fp2) ∧
    tp2 ≤ 2 ∧
    (length (filter (passes 0.5)
               [mkRegion (mkBox 0 0 10 10) (Some 0.9%Q);
                mkRegion (mkBox 20 20 30 30) (Some 0.4%Q);
                mkRegion (mkBox 50 50 60 60) None])
       ≤ length (filter (passes 0.25)
                   [mkRegion (mkBox 0 0 10 10) (Some 0.9%Q);
                    mkRegion (mkBox 20 20 30 30) (Some 0.4%Q);
                    mkRegion (mkBox 50 50 60 60) None]))%nat.
Proof.
  apply (evaluate_image_monotone calculate_iou _ _ 0.25 0.5 0.5 2 0 0).
  - vm_compute. discriminate.
  - vm_compute. reflexivity.
Defined.

(** ** The choice of the best ground-truth box *)

Lemma enum_from_elem {A} k (l : list A) idx x :
  (idx, x) ∈ enum_from k l ↔ (k ≤ idx)%nat ∧ l !! (idx - k)%nat = Some x.
Proof.
  revert k. induction l as [|y l IH]; intros k; simpl.
  - rewrite elem_of_nil. split; [done|]. by intros [_ ?].
  - rewrite elem_of_cons, IH. split.
    + intros [[= -> ->]|[Hk Hl]].
      * split; [lia|]. by rewrite Nat.sub_diag.
      * split; [lia|]. by replace (idx - k)%nat with (S (idx - S k)) by lia.
    + intros [Hk Hl]. destruct (decide (idx = k)) as [->|Hne].
      * left. rewrite Nat.sub_diag in Hl. simpl in Hl. congruence.
      * right. split; [lia|].
        by replace (idx - k)%nat with (S (idx - S k)) in Hl by lia.
Qed.

Lemma enumerate_elem {A} (l : list A) idx x :
  (idx, x) ∈ enumerate l ↔ l !! idx = Some x.
Proof.
  unfold enumerate. rewrite enum_from_elem, Nat.sub_0_r. split; [tauto|].
  split; [lia | done].
Qed.

Section BestMatch.
Variable iou : Box → Box → Q.
Variables (matched : gset (option nat)) (pred : Box).

Lemma best_fold (l : list (nat * Box)) (b0 : Q) (i0 : option nat) :
  StronglySorted (λ p q, (p.1 < q.1)%nat) l →
  ∃ b i,
    fold_left (best_step iou matched pred) l (b0, i0) = (b, i) ∧
    (b0 <= b)%Q ∧
    (∀ idx gt, (idx, gt) ∈ l → Some idx ∉ matched → (iou pred gt <= b)%Q) ∧
    ((b, i) = (b0, i0) ∨
     ∃ idx gt, (idx, gt) ∈ l ∧ (Some idx ∉ matched) ∧
       i = Some idx ∧ b = iou pred gt ∧ (b0 < b)%Q ∧
       ∀ idx' gt', (idx', gt') ∈ l → Some idx' ∉ matched →
                   (idx' < idx)%nat → (iou pred gt' < b)%Q).
Proof.
  intros Hl. revert b0 i0.
  induction Hl as [|[k x] l Hl IH Hk]; intros b0 i0; simpl.
  - exists b0, i0. split; [done|]. split; [apply Qle_refl|].
    split; [|by left]. intros idx gt Hin. by apply elem_of_nil in Hin.
  - rewrite Forall_forall in Hk.
    destruct (bool_decide (Some k ∈ matched)) eqn:Hm.
    + apply bool_decide_eq_true in Hm.
      destruct (IH b0 i0) as (b & i & Hf & Hb & Hall & Hcase).
      exists b, i. split; [done|]. split; [done|]. split.
      * intros idx gt Hin Hnm. apply elem_of_cons in Hin as [[= -> ->]|Hin]; [done|].
        by eapply Hall.
      * destruct Hcase as [?|(idx & gt & Hin & Hnm & -> & -> & Hlt & Hfirst)];
          [by left | right].
        exists idx, gt. split; [by right|]. repeat split; [done..|].
        intros idx' gt' Hin' Hnm' Hlt'.
        apply elem_of_cons in Hin' as [[= -> ->]|Hin']; [done|]. by eapply Hfirst.
    + apply bool_decide_eq_false in Hm. simpl.
      destruct (Qltb b0 (iou pred x)) eqn:Hlt.
      * apply Qltb_lt in Hlt.
        destruct (IH (iou pred x) (Some k)) as (b & i & Hf & Hb & Hall & Hcase).
        exists b, i. split; [done|].
        split; [apply Qlt_le_weak; by eapply Qlt_le_trans|]. split.
        -- intros idx gt Hin Hnm.
           apply elem_of_cons in Hin as [[= -> ->]|Hin]; [done | by eapply Hall].
        -- right.
           destruct Hcase as [[= -> ->]|(idx & gt & Hin & Hnm & -> & -> & Hlt' & Hfirst)].
           ++ exists k, x. split; [left|]. repeat split; [done..|].
              intros idx' gt' Hin' _ Hlt'.
              apply elem_of_cons in Hin' as [[= -> ->]|Hin']; [lia|].
              apply Hk in Hin'. simpl in Hin'. lia.
           ++ exists idx, gt. split; [by right|].
              repeat split; [done..|by eapply Qlt_trans|].
              intros idx' gt' Hin' Hnm' Hlt''.
              apply elem_of_cons in Hin' as [[= -> ->]|Hin']; [done|].
              by eapply Hfirst.
      * apply Qltb_ge in Hlt.
        destruct (IH b0 i0) as (b & i & Hf & Hb & Hall & Hcase).
        exists b, i. split; [done|]. split; [done|]. split.
        -- intros idx gt Hin Hnm.
           apply elem_of_cons in Hin as [[= -> ->]|Hin]; [|by eapply Hall].
           by eapply Qle_trans.
        -- destruct Hcase as [?|(idx & gt & Hin & Hnm & -> & -> & Hlt' & Hfirst)];
             [by left | right].
           exists idx, gt. split; [by right|]. repeat split; [done..|].
           intros idx' gt' Hin' Hnm' Hlt''.
           apply elem_of_cons in Hin' as [[= -> ->]|Hin']; [|by eapply Hfirst].
           by eapply Qle_lt_trans.
Qed.
End BestMatch.

Lemma enum_from_sorted {A} k (l : list A) :
  StronglySorted (λ p q : nat * A, (p.1 < q.1)%nat) (enum_from k l).
Proof.
  revert k. induction l as [|x l IH]; intros k; simpl; constructor; [apply IH|].
  apply Forall_forall. intros [idx y] Hin.
  apply enum_from_elem in Hin. simpl. lia.
Qed.

(** X17.  For a positive [Jaccard_min], one step of the matching does what
    the greedy rule says: the prediction takes, among the candidates, the one
    of greatest IoU, the first of them in the list when several reach it,
    and counts as a true positive; without a candidate it counts as a false
    positive.  A matched box stays matched, and only unmatched boxes are
    taken. *)
Theorem match_step_greedy (iou : Box → Box → Q) (gt_boxes : list Box)
    (Jaccard_min : Q) (st : tally) (ps : Box * Q) :
  (0 < Jaccard_min)%Q →
  (∃ idx gt,
     candidate iou gt_boxes (matched_gt st) Jaccard_min ps.1 idx gt ∧
     (∀ idx' gt', candidate iou gt_boxes (matched_gt st) Jaccard_min ps.1 idx' gt' →
        (iou ps.1 gt' <= iou ps.1 gt)%Q ∧
        ((idx' < idx)%nat → (iou ps.1 gt' < iou ps.1 gt)%Q)) ∧
     match_step iou gt_boxes Jaccard_min st ps =
       {| true_positives := true_positives st + 1;
          false_positives := false_positives st;
          false_negatives := false_negatives st - 1;
          matched_gt := {[Some idx]} ∪ matched_gt st |}) ∨
  ((∀ idx gt, ¬ candidate iou gt_boxes (matched_gt st) Jaccard_min ps.1 idx gt) ∧
   match_step iou gt_boxes Jaccard_min st ps =
     {| true_positives := true_positives st;
        false_positives := false_positives st + 1;
        false_negatives := false_negatives st;
        matched_gt := matched_gt st |}).
Proof.
  intros Hpos. unfold match_step, best_match, candidate.
  destruct (best_fold iou (matched_gt st) ps.1 (enumerate gt_boxes) 0%Q None
              (enum_from_sorted 0 gt_boxes))
    as (b & i & -> & Hb & Hall & Hcase).
  assert (∀ idx gt, gt_boxes !! idx = Some gt → Some idx ∉ matched_gt st →
                    (iou ps.1 gt <= b)%Q) as Hall'.
  { intros idx gt Hl. apply Hall. by apply enumerate_elem. }
  destruct (Qle_bool Jaccard_min b) eqn:Hj; simpl.
  - apply Qle_bool_iff in Hj.
    destruct Hcase as [[= -> ->]|(idx & gt & Hin & Hnm & -> & -> & Hlt & Hfirst)].
    { exfalso. apply (Qlt_irrefl 0). by eapply Qlt_le_trans. }
    left. exists idx, gt. apply enumerate_elem in Hin.
    split; [done|]. split.
    + intros idx' gt' (Hl' & Hnm' & _). split; [by eapply Hall'|].
      apply Hfirst; [by apply enumerate_elem | done].
    + by rewrite bool_decide_eq_true_2.
  - right. split; [|done].
    intros idx gt (Hl & Hnm & Hge).
    assert (Jaccard_min <= b)%Q as Hle by (eapply Qle_trans; eauto).
    apply Qle_bool_iff in Hle. congruence.
Qed.

Lemma match_step_greedy_witness :
  match_step calculate_iou [mkBox 0 0 10 10]
    0.5 (mkTally 1 0 0 {[Some 0%nat]}) (mkBox 0 0 10 10, 0.8%Q)
  = mkTally 1 1 0 {[Some 0%nat]}.
Proof.
  destruct (match_step_greedy calculate_iou [mkBox 0 0 10 10]
              0.5 (mkTally 1 0 0 {[Some 0%nat]}) (mkBox 0 0 10 10, 0.8%Q))
    as [(idx & gt & (Hl & Hnm & _) & _)|[_ Hstep]].
  - reflexivity.
  - exfalso. destruct idx as [|idx]; [|done]. apply Hnm. simpl.
    by apply elem_of_singleton.
  - exact Hstep.
Defined.

(** C2, at [Jaccard_min = 0].  Two predictions of scores 0.9 and 0.8 both
    overlap the only ground-truth box, with IoU 1 and 1/3.  The first one
    takes the box.  The second one finds it taken, keeps [best_gt_idx] at
    [None] and [best_iou] at 0, passes the test [best_iou >= Jaccard_min]
    and is counted as a true positive as well: the result is TP = 2,
    FN = -1, FP = 0, where the greedy rule gives TP = 1, FN = 0, FP = 1. *)
Theorem evaluate_image_zero_jaccard :
  (calculate_iou (mkBox 0 0 10 10) (mkBox 0 0 10 10) == 1)%Q ∧
  (calculate_iou (mkBox 5 0 15 10) (mkBox 0 0 10 10) == 1 # 3)%Q ∧
  evaluate_image calculate_iou
    [mkRegion (mkBox 0 0 10 10) None]
    [mkRegion (mkBox 0 0 10 10) (Some 0.9%Q); mkRegion (mkBox 5 0 15 10) (Some 0.8%Q)]
    0.5 0 = Ok (2, -1, 0) ∧
  evaluate_image calculate_iou
    [mkRegion (mkBox 0 0 10 10) None]
    [mkRegion (mkBox 0 0 10 10) (Some 0.9%Q); mkRegion (mkBox 5 0 15 10) (Some 0.8%Q)]
    0.5 0.25 = Ok (1, 0, 1).
Proof. repeat split; vm_compute; reflexivity. Qed.

(** C10, at threshold 0.  A prediction without a score passes the filter
    [region.get("score", 0) >= threshold], and the element
    [(region["region"], region["score"])] built for it raises KeyError:
    [evaluate_image] fails instead of taking the score to be 0.  At a
    positive threshold the region is left out without an error.  The filter
    of [evaluate_pr_naive] raises KeyError at every threshold. *)
Theorem evaluate_image_missing_score (iou : Box → Box → Q)
    (annotations : list Region) (box : Box) (Jaccard_min : Q) :
  evaluate_image iou annotations [mkRegion box None] 0 Jaccard_min = Raise KeyError ∧
  evaluate_image iou annotations [mkRegion box None] (-1) Jaccard_min = Raise KeyError ∧
  evaluate_image iou annotations [mkRegion box None] 0.5 Jaccard_min
    = Ok (0, Z.of_nat (length annotations), 0) ∧
  naive_pred_boxes [mkRegion box None] 0 = Raise KeyError ∧
  naive_pred_boxes [mkRegion box None] 0.5 = Raise KeyError.
Proof.
  repeat split; try reflexivity.
  unfold evaluate_image. simpl. unfold count_matches. rewrite length_map.
  by destruct annotations.
Qed.

(** ** Comprehensions and thresholds *)

Lemma mapM_ok {A B} (f : A → result B) (g : A → B) l :
  (∀ x, x ∈ l → f x = Ok (g x)) → mapM f l = Ok (g <$> l).
Proof.
  induction l as [|x l IH]; intros Hf; simpl; [done|].
  rewrite (Hf x) by left. simpl. rewrite IH; [done|].
  intros y Hy. apply Hf. by right.
Qed.

Lemma seq_ascending a n : StronglySorted lt (seq a n).
Proof.
  revert a. induction n as [|n IH]; intros a; simpl; constructor; [apply IH|].
  apply Forall_forall. intros k Hk. apply elem_of_seq in Hk. lia.
Qed.

Lemma range_ascending n : StronglySorted Z.lt (range n).
Proof.
  unfold range. eapply (StronglySorted_fmap Z.of_nat lt); [|apply seq_ascending].
  intros; lia.
Qed.

Lemma div_lt_compat (N i j : Z) :
  0 < N → i < j → (inject_Z i / inject_Z N < inject_Z j / inject_Z N)%Q.
Proof.
  intros HN Hij. unfold Qdiv. apply Qmult_lt_compat_r.
  - apply Qinv_lt_0_compat. change 0%Q with (inject_Z 0). by rewrite <- Zlt_Qlt.
  - by rewrite <- Zlt_Qlt.
Qed.

Lemma thresholds_zero : thresholds 0 = Raise ZeroDivisionError.
Proof. reflexivity. Qed.

Lemma thresholds_neg N : N < 0 → thresholds N = Ok [].
Proof.
  intros HN. unfold thresholds, range.
  replace (Z.to_nat (N + 1)) with 0%nat by lia. reflexivity.
Qed.

Lemma thresholds_pos N : 0 < N → thresholds N = Ok (threshold_list N).
Proof.
  intros HN. unfold thresholds, threshold_list. apply mapM_ok.
  intros i _. unfold py_div. by rewrite (proj2 (Z.eqb_neq N 0)) by lia.
Qed.

Lemma threshold_list_ascending N : 0 < N → StronglySorted Qlt (threshold_list N).
Proof.
  intros HN. unfold threshold_list.
  eapply (StronglySorted_fmap _ Z.lt); [|apply range_ascending].
  intros i j. by apply div_lt_compat.
Qed.

Lemma threshold_list_nonempty N :
  0 < N → ∃ ths, threshold_list N = (inject_Z 0 / inject_Z N)%Q :: ths.
Proof.
  intros HN. unfold threshold_list, range.
  destruct (Z.to_nat (N + 1)) as [|n] eqn:Hn; [lia|]. simpl. eauto.
Qed.

(** The thresholds are taken from the highest down and the results put back
    in ascending order. *)
Lemma sweep_order {B} (f : Q → B) (key : B → Q) ths :
  StronglySorted Qlt ths → (∀ t, key (f t) = t) →
  sort_by (λ a b, Qltb (key a) (key b)) (f <$> sort_by (λ a b, Qltb b a) ths)
    = f <$> ths.
Proof.
  intros Hths Hkey.
  assert (sort_by (λ a b, Qltb b a) ths = reverse ths) as ->.
  { apply sort_by_reverse. eapply StronglySorted_mono; [|exact Hths].
    intros a b. by rewrite Qltb_lt. }
  rewrite fmap_reverse.
  rewrite sort_by_reverse; [by rewrite reverse_involutive|].
  rewrite <- fmap_reverse.
  eapply (StronglySorted_fmap f (λ a b, (b < a)%Q)).
  - intros a b. by rewrite !Hkey, Qltb_lt.
  - clear Hkey. induction Hths as [|x l _ IH Hx]; [constructor|].
    rewrite reverse_cons. apply StronglySorted_app_2; [|done|repeat constructor].
    intros a b Ha Hb. apply list_elem_of_singleton in Hb as ->.
    rewrite Forall_forall in Hx. apply Hx. by apply elem_of_reverse.
Qed.

(** ** Predictions by location *)

Lemma lookup_score_Some r s : score r = Some s → lookup_score r = Ok s.
Proof. unfold lookup_score. by intros ->. Qed.

Lemma lookup_score_None r : score r = None → lookup_score r = Raise KeyError.
Proof. unfold lookup_score. by intros ->. Qed.

Lemma all_pred_boxes_scored regions :
  all_scored regions → all_pred_boxes regions = Ok (scored_boxes regions).
Proof.
  unfold all_pred_boxes.
  induction 1 as [|r rs [s Hs] _ IH]; [done|].
  rewrite (scored_boxes_cons_Some r rs s Hs).
  cbn [mapM]. by rewrite IH, (lookup_score_Some r s Hs).
Qed.

Lemma all_pred_boxes_raise regions :
  ¬ all_scored regions → all_pred_boxes regions = Raise KeyError.
Proof.
  unfold all_pred_boxes, all_scored.
  induction regions as [|r rs IH]; intros Hno; [by destruct Hno|].
  cbn [mapM]. destruct (score r) as [s|] eqn:Hs.
  - rewrite (lookup_score_Some r s Hs), IH; [done|].
    intros Hrs. apply Hno. constructor; [by rewrite Hs | done].
  - by rewrite (lookup_score_None r Hs).
Qed.

Lemma sorted_predictions_from_ok images acc :
  well_scored images →
  ∃ sp, sorted_predictions_from images acc = Ok sp ∧
    ∀ loc, sp !! loc =
      match last (filter (λ img, location img = loc) images) with
      | Some img => Some (sort_by_score (scored_boxes (annotated_regions img)))
      | None => acc !! loc
      end.
Proof.
  intros Hws. revert acc. induction Hws as [|img rest Himg _ IH]; intros acc; simpl.
  - by exists acc.
  - rewrite (all_pred_boxes_scored _ Himg). simpl.
    destruct (IH (<[location img := sort_by_score (scored_boxes (annotated_regions img))]>
                    acc)) as (sp & -> & Hsp).
    exists sp. split; [done|]. intros loc. rewrite Hsp, filter_cons.
    destruct (decide (location img = loc)) as [<-|Hne].
    + rewrite last_cons.
      destruct (last (filter (λ img0, location img0 = location img) rest)); [done|].
      by rewrite lookup_insert_eq.
    + destruct (last (filter (λ img0, location img0 = loc) rest)); [done|].
      by rewrite lookup_insert_ne.
Qed.

Lemma sorted_predictions_ok predictions :
  well_scored predictions →
  ∃ sp, sorted_predictions predictions = Ok sp ∧
    ∀ loc, default [] (sp !! loc)
           = sort_by_score (scored_boxes (paired_predictions predictions loc)).
Proof.
  intros Hws.
  destruct (sorted_predictions_from_ok predictions ∅ Hws) as (sp & Hsp & Hl).
  exists sp. split; [done|]. intros loc. rewrite Hl. unfold paired_predictions.
  destruct (last (filter (λ img, location img = loc) predictions)); [done|].
  by rewrite lookup_empty.
Qed.

Lemma sorted_predictions_raise images acc :
  ¬ well_scored images → sorted_predictions_from images acc = Raise KeyError.
Proof.
  unfold well_scored. revert acc.
  induction images as [|img rest IH]; intros acc Hno; simpl; [by destruct Hno|].
  destruct (decide (all_scored (annotated_regions img))) as [Himg|Himg].
  - rewrite (all_pred_boxes_scored _ Himg). simpl. apply IH.
    intros Hrest. apply Hno. by constructor.
  - by rewrite (all_pred_boxes_raise _ Himg).
Qed.

(** ** The two loops over images *)

Lemma scored_boxes_make l :
  scored_boxes (map (λ bs : Box * Q, {| region := bs.1; score := Some bs.2 |}) l) = l.
Proof.
  induction l as [|[b q] l IH]; [done|].
  simpl map. rewrite (scored_boxes_cons_Some _ _ q) by done. simpl. by rewrite IH.
Qed.

Lemma all_scored_make l :
  all_scored (map (λ bs : Box * Q, {| region := bs.1; score := Some bs.2 |}) l).
Proof. induction l; constructor; [by eexists | done]. Qed.

Lemma evaluate_image_scored iou annotations predictions thr Jaccard_min :
  all_scored predictions →
  evaluate_image iou annotations predictions thr Jaccard_min
    = Ok (image_counts iou annotations predictions thr Jaccard_min).
Proof.
  intros Hall. unfold evaluate_image, image_counts.
  by rewrite (pred_boxes_above_scored _ _ Hall).
Qed.

Section Loops.
Variable iou : Box → Box → Q.

(** What [evaluate_pr] hands to [evaluate_image] for an image gives the
    counts of the predictions of the image themselves. *)
Lemma evaluate_image_presorted annotations pred_boxes thr Jaccard_min :
  evaluate_image iou annotations
    (map (λ bs : Box * Q, {| region := bs.1; score := Some bs.2 |})
         (filter (above thr) (sort_by_score pred_boxes)))
    thr Jaccard_min
  = Ok (count_matches iou (region <$> annotations)
          (sort_by_score (filter (above thr) pred_boxes)) Jaccard_min).
Proof.
  rewrite evaluate_image_scored by apply all_scored_make.
  unfold image_counts. rewrite scored_boxes_make.
  rewrite (list_filter_filter_l (above thr) (above thr)) by done.
  by rewrite filter_sort_by_score, sort_by_score_idem.
Qed.

Lemma pr_totals_ok sorted_preds predictions annotations thr Jaccard_min acc :
  (∀ loc, default [] (sorted_preds !! loc)
          = sort_by_score (scored_boxes (paired_predictions predictions loc))) →
  pr_totals iou sorted_preds annotations thr Jaccard_min acc
  = Ok (fold_left accumulate
          ((λ gt_img, image_counts iou (annotated_regions gt_img)
                        (paired_predictions predictions (location gt_img))
                        thr Jaccard_min) <$> annotations)
          acc).
Proof.
  intros Hsp. revert acc.
  induction annotations as [|gt_img rest IH]; intros acc; simpl; [done|].
  rewrite Hsp, evaluate_image_presorted. simpl.
  fold (image_counts iou (annotated_regions gt_img)
          (paired_predictions predictions (location gt_img)) thr Jaccard_min).
  destruct (image_counts iou (annotated_regions gt_img)
              (paired_predictions predictions (location gt_img)) thr Jaccard_min)
    as [[tp fn] fp].
  destruct acc as [[total_tp total_fp] total_fn]. apply IH.
Qed.

Lemma naive_pred_boxes_scored regions thr :
  all_scored regions → ∃ l, naive_pred_boxes regions thr = Ok l.
Proof.
  induction 1 as [|r rs [s Hs] _ [l IH]]; [by eexists|].
  cbn [naive_pred_boxes]. rewrite (lookup_score_Some r s Hs), IH. simpl.
  destruct (Qle_bool thr s); simpl; by eexists.
Qed.

Lemma naive_pred_boxes_raise regions thr :
  ¬ all_scored regions → naive_pred_boxes regions thr = Raise KeyError.
Proof.
  unfold all_scored.
  induction regions as [|r rs IH]; intros Hno; [by destruct Hno|].
  cbn [naive_pred_boxes]. destruct (score r) as [s|] eqn:Hs.
  - rewrite (lookup_score_Some r s Hs), IH; [simpl; by destruct (Qle_bool thr s)|].
    intros Hrs. apply Hno. constructor; [by rewrite Hs | done].
  - by rewrite (lookup_score_None r Hs).
Qed.

Lemma naive_totals_ok pairs thr Jaccard_min acc :
  Forall (λ gp : Image * Image, all_scored (annotated_regions gp.2)) pairs →
  naive_totals iou pairs thr Jaccard_min acc
  = Ok (fold_left accumulate
          ((λ gp : Image * Image,
              image_counts iou (annotated_regions gp.1) (annotated_regions gp.2)
                thr Jaccard_min) <$> pairs)
          acc).
Proof.
  intros Hall. revert acc.
  induction Hall as [|[gt_img pred_img] rest Hp _ IH]; intros acc; simpl; [done|].
  simpl in Hp. destruct (naive_pred_boxes_scored _ thr Hp) as [l ->]. simpl.
  rewrite (evaluate_image_scored _ _ _ _ _ Hp). simpl.
  destruct (image_counts iou (annotated_regions gt_img)
              (annotated_regions pred_img) thr Jaccard_min) as [[tp fn] fp].
  destruct acc as [[total_tp total_fp] total_fn]. apply IH.
Qed.

Lemma naive_totals_raise pairs thr Jaccard_min acc :
  ¬ Forall (λ gp : Image * Image, all_scored (annotated_regions gp.2)) pairs →
  naive_totals iou pairs thr Jaccard_min acc = Raise KeyError.
Proof.
  revert acc.
  induction pairs as [|[gt_img pred_img] rest IH]; intros acc Hno; simpl;
    [by destruct Hno|].
  destruct (decide (all_scored (annotated_regions pred_img))) as [Hp|Hp].
  - destruct (naive_pred_boxes_scored _ thr Hp) as [l ->]. simpl.
    rewrite (evaluate_image_scored _ _ _ _ _ Hp). simpl.
    destruct (image_counts iou (annotated_regions gt_img)
                (annotated_regions pred_img) thr Jaccard_min) as [[tp fn] fp].
    destruct acc as [[total_tp total_fp] total_fn]. apply IH.
    intros Hrest. apply Hno. by constructor.
  - by rewrite (naive_pred_boxes_raise _ _ Hp).
Qed.
End Loops.

(** ** The two sweeps *)

Lemma threshold_point_of totals thr : threshold (point_of totals thr) = thr.
Proof. by destruct totals as [[? ?] ?]. Qed.

Lemma recall_point_of totals thr :
  recall (point_of totals thr) = ratio totals.1.1 (totals.1.1 + totals.2).
Proof. by destruct totals as [[? ?] ?]. Qed.

Lemma well_scored_zip annotations predictions :
  well_scored predictions →
  Forall (λ gp : Image * Image, all_scored (annotated_regions gp.2))
         (zip annotations predictions).
Proof.
  unfold well_scored. rewrite !Forall_forall. intros Hws [g q] Hin.
  apply Hws. by eapply elem_of_zip_r.
Qed.

Section Sweeps.
Variable iou : Box → Box → Q.

Lemma evaluate_pr_pos annotations predictions N Jaccard_min :
  0 < N → well_scored predictions →
  evaluate_pr iou annotations predictions N Jaccard_min
  = Ok ((λ thr, point_of (pr_sum iou annotations predictions thr Jaccard_min) thr)
          <$> threshold_list N).
Proof.
  intros HN Hws. unfold evaluate_pr. rewrite (thresholds_pos N HN). simpl.
  destruct (sorted_predictions_ok predictions Hws) as (sp & -> & Hsp). simpl.
  rewrite (mapM_ok _ (λ thr, point_of
                        (pr_sum iou annotations predictions thr Jaccard_min) thr)).
  - simpl. f_equal.
    apply (sweep_order _ threshold);
      [by apply threshold_list_ascending | intros; apply threshold_point_of].
  - intros thr _. by rewrite (pr_totals_ok iou sp predictions).
Qed.

Lemma evaluate_pr_naive_pos annotations predictions N Jaccard_min :
  0 < N → well_scored predictions →
  evaluate_pr_naive iou annotations predictions N Jaccard_min
  = Ok ((λ thr, point_of (naive_sum iou annotations predictions thr Jaccard_min) thr)
          <$> threshold_list N).
Proof.
  intros HN Hws. unfold evaluate_pr_naive. rewrite (thresholds_pos N HN). simpl.
  apply mapM_ok. intros thr _.
  by rewrite (naive_totals_ok iou) by by apply well_scored_zip.
Qed.

Lemma evaluate_pr_not_scored annotations predictions N Jaccard_min rs :
  evaluate_pr iou annotations predictions N Jaccard_min = Ok rs →
  well_scored predictions.
Proof.
  intros Hrs. apply dec_stable. intros Hno. unfold evaluate_pr in Hrs.
  destruct (thresholds N); simpl in Hrs; [|done].
  unfold sorted_predictions in Hrs.
  by rewrite (sorted_predictions_raise _ _ Hno) in Hrs.
Qed.
End Sweeps.

(** ** Pairing of the images *)

Lemma paired_predictions_missing predictions loc :
  (∀ img, img ∈ predictions → location img ≠ loc) →
  paired_predictions predictions loc = [].
Proof.
  intros Hno. unfold paired_predictions.
  replace (filter (λ img, location img = loc) predictions) with (@nil Image); [done|].
  symmetry. induction predictions as [|img rest IH]; [done|].
  rewrite filter_cons_False by (apply Hno; left).
  apply IH. intros img' Hin. apply Hno. by right.
Qed.

Lemma paired_predictions_unique predictions img :
  NoDup (location <$> predictions) → img ∈ predictions →
  paired_predictions predictions (location img) = annotated_regions img.
Proof.
  intros Hnd Hin. unfold paired_predictions.
  replace (filter (λ img', location img' = location img) predictions) with [img];
    [done|].
  symmetry. induction predictions as [|img' rest IH]; [by apply elem_of_nil in Hin|].
  simpl in Hnd. apply NoDup_cons in Hnd as [Hfresh Hnd].
  apply elem_of_cons in Hin as [->|Hin].
  - rewrite filter_cons_True by done. f_equal.
    clear IH. induction rest as [|x rest IH]; [done|].
    simpl in Hfresh, Hnd. apply not_elem_of_cons in Hfresh as [Hne Hfresh].
    apply NoDup_cons in Hnd as [_ Hnd].
    rewrite filter_cons_False by done. by apply IH.
  - rewrite filter_cons_False; [by apply IH|].
    intros Heq. apply Hfresh. rewrite Heq. by apply list_elem_of_fmap_2.
Qed.

Lemma image_counts_no_predictions iou annotations thr Jaccard_min :
  image_counts iou annotations [] thr Jaccard_min
  = (0, Z.of_nat (length annotations), 0).
Proof.
  unfold image_counts, count_matches. rewrite length_fmap.
  by destruct annotations.
Qed.

Lemma aligned_counts iou predictions thr Jaccard_min (gs qs : list Image) :
  location <$> gs = location <$> qs →
  (∀ img, img ∈ qs →
     paired_predictions predictions (location img) = annotated_regions img) →
  (λ gt_img, image_counts iou (annotated_regions gt_img)
               (paired_predictions predictions (location gt_img))
               thr Jaccard_min) <$> gs
  = (λ gp : Image * Image,
       image_counts iou (annotated_regions gp.1) (annotated_regions gp.2)
         thr Jaccard_min) <$> zip gs qs.
Proof.
  revert qs. induction gs as [|g gs IH]; intros [|q qs] Hloc Hpair; try done.
  rewrite !fmap_cons in Hloc. injection Hloc as Hg Hgs.
  simpl. f_equal.
  - rewrite Hg. by rewrite Hpair by left.
  - apply IH; [done|]. intros img Hin. apply Hpair. by right.
Qed.

Lemma aligned_sums iou annotations predictions thr Jaccard_min :
  location <$> annotations = location <$> predictions →
  NoDup (location <$> predictions) →
  pr_sum iou annotations predictions thr Jaccard_min
  = naive_sum iou annotations predictions thr Jaccard_min.
Proof.
  intros Hloc Hnd. unfold pr_sum, naive_sum. f_equal.
  apply aligned_counts; [done|].
  intros. by apply paired_predictions_unique.
Qed.

Lemma paired_predictions_scored predictions loc :
  well_scored predictions → all_scored (paired_predictions predictions loc).
Proof.
  intros Hws. unfold paired_predictions.
  destruct (last (filter (λ img, location img = loc) predictions)) as [img|] eqn:Hl;
    [|constructor].
  apply last_Some in Hl as [l' Hl].
  assert (img ∈ filter (λ img, location img = loc) predictions) as Hin.
  { rewrite Hl. apply elem_of_app. right. left. }
  apply list_elem_of_filter in Hin as [_ Hin].
  unfold well_scored in Hws. rewrite Forall_forall in Hws. by apply Hws.
Qed.

(** ** Monotonicity of the totals *)

Lemma div_le_compat (N i j : Z) :
  0 < N → i ≤ j → (inject_Z i / inject_Z N <= inject_Z j / inject_Z N)%Q.
Proof.
  intros HN Hij. unfold Qdiv. apply Qmult_le_compat_r.
  - by rewrite <- Zle_Qle.
  - apply Qinv_le_0_compat. change 0%Q with (inject_Z 0). rewrite <- Zle_Qle. lia.
Qed.

Lemma ratio_mono num1 num2 den :
  num2 ≤ num1 → (ratio num2 den <= ratio num1 den)%Q.
Proof.
  intros Hle. unfold ratio. destruct (0 <? den) eqn:Hd; [|apply Qle_refl].
  apply div_le_compat; [lia | done].
Qed.

Lemma image_counts_mono iou annotations predictions t1 t2 Jaccard_min :
  (t1 <= t2)%Q →
  let c1 := image_counts iou annotations predictions t1 Jaccard_min in
  let c2 := image_counts iou annotations predictions t2 Jaccard_min in
  c2.1.1 ≤ c1.1.1 ∧ c1.1.1 + c1.1.2 = c2.1.1 + c2.1.2.
Proof.
  intros Ht c1 c2. split.
  - apply count_matches_prefix. by apply sorted_above_prefix.
  - unfold c1, c2, image_counts.
    destruct (count_matches iou (region <$> annotations)
                (sort_by_score (filter (above t1) (scored_boxes predictions)))
                Jaccard_min) as [[tp1 fn1] fp1] eqn:H1.
    destruct (count_matches iou (region <$> annotations)
                (sort_by_score (filter (above t2) (scored_boxes predictions)))
                Jaccard_min) as [[tp2 fn2] fp2] eqn:H2.
    apply count_matches_counts in H1 as (H1 & _), H2 as (H2 & _). simpl. lia.
Qed.

Lemma fold_counts_mono {A} (f1 f2 : A → Z * Z * Z) l acc1 acc2 :
  (∀ x, (f2 x).1.1 ≤ (f1 x).1.1 ∧
        (f1 x).1.1 + (f1 x).1.2 = (f2 x).1.1 + (f2 x).1.2) →
  acc2.1.1 ≤ acc1.1.1 → acc1.1.1 + acc1.2 = acc2.1.1 + acc2.2 →
  (fold_left accumulate (f2 <$> l) acc2).1.1
    ≤ (fold_left accumulate (f1 <$> l) acc1).1.1 ∧
  (fold_left accumulate (f1 <$> l) acc1).1.1 + (fold_left accumulate (f1 <$> l) acc1).2
    = (fold_left accumulate (f2 <$> l) acc2).1.1
      + (fold_left accumulate (f2 <$> l) acc2).2.
Proof.
  intros Hf. revert acc1 acc2.
  induction l as [|x l IH]; intros acc1 acc2 Hle Heq; simpl; [done|].
  apply IH; destruct (Hf x) as [Hx1 Hx2];
    destruct (f1 x) as [[tp1 fn1] fp1], (f2 x) as [[tp2 fn2] fp2],
             acc1 as [[a1 b1] c1], acc2 as [[a2 b2] c2]; simpl in *; lia.
Qed.

Lemma pr_sum_mono iou annotations predictions t1 t2 Jaccard_min :
  (t1 <= t2)%Q →
  (recall (point_of (pr_sum iou annotations predictions t2 Jaccard_min) t2)
   <= recall (point_of (pr_sum iou annotations predictions t1 Jaccard_min) t1))%Q.
Proof.
  intros Ht. rewrite !recall_point_of. unfold pr_sum.
  edestruct (fold_counts_mono
    (λ gt_img, image_counts iou (annotated_regions gt_img)
                 (paired_predictions predictions (location gt_img)) t1 Jaccard_min)
    (λ gt_img, image_counts iou (annotated_regions gt_img)
                 (paired_predictions predictions (location gt_img)) t2 Jaccard_min)
    annotations (0, 0, 0) (0, 0, 0)) as [Hle Heq];
    [intros; by apply image_counts_mono | done | done |].
  rewrite <- Heq. by apply ratio_mono.
Qed.

(** ** The claims on the sweep *)

(** C9, as the code has it.  When [evaluate_pr] returns, its list holds, for
    the thresholds in ascending order, the precision TP/(TP+FP) and the
    recall TP/(TP+FN) of the totals at each threshold (0 when the
    denominator is 0), and the recall does not increase along the list. *)
Theorem recall_non_increasing (iou : Box → Box → Q)
    (annotations predictions : list Image) (N : Z) (Jaccard_min : Q)
    (results : list pr_point) :
  evaluate_pr iou annotations predictions N Jaccard_min = Ok results →
  ∃ ths,
    thresholds N = Ok ths ∧
    results = (λ thr, point_of (pr_sum iou annotations predictions thr Jaccard_min) thr)
                <$> ths ∧
    StronglySorted (λ x y, (threshold x < threshold y)%Q ∧ (recall y <= recall x)%Q)
                   results.
Proof.
  intros Hres.
  pose proof (evaluate_pr_not_scored _ _ _ _ _ _ Hres) as Hws.
  destruct (Z.lt_trichotomy N 0) as [Hneg|[->|Hpos]].
  - exists []. unfold evaluate_pr in Hres. rewrite (thresholds_neg N Hneg) in *.
    simpl in Hres. destruct (sorted_predictions predictions); [|done].
    simpl in Hres. injection Hres as <-. repeat split; constructor.
  - by unfold evaluate_pr in Hres.
  - exists (threshold_list N). rewrite (evaluate_pr_pos _ _ _ _ _ Hpos Hws) in Hres.
    injection Hres as <-. split; [by apply thresholds_pos|]. split; [done|].
    eapply (StronglySorted_fmap _ Qlt); [|by apply threshold_list_ascending].
    intros t1 t2 Hlt. rewrite !threshold_point_of. split; [done|].
    apply pr_sum_mono. by apply Qlt_le_weak.
Qed.

Lemma recall_non_increasing_witness :
  ∃ ths,
    thresholds 2 = Ok ths ∧
    [mkPoint (1 # 2) 1 (0 # 2); mkPoint (0 # 1) (0 # 1) (1 # 2); mkPoint 0 0 (2 # 2)]
      = (λ thr, point_of
                  (pr_sum calculate_iou
                     [mkImage "a" [mkRegion (mkBox 0 0 10 10) None]]
                     [mkImage "a" [mkRegion (mkBox 20 20 30 30) (Some 0.9%Q);
                                   mkRegion (mkBox 0 0 10 10) (Some 0.3%Q)]]
                     thr 0.5) thr) <$> ths ∧
    StronglySorted (λ x y, (threshold x < threshold y)%Q ∧ (recall y <= recall x)%Q)
      [mkPoint (1 # 2) 1 (0 # 2); mkPoint (0 # 1) (0 # 1) (1 # 2); mkPoint 0 0 (2 # 2)].
Proof.
  apply (recall_non_increasing calculate_iou
           [mkImage "a" [mkRegion (mkBox 0 0 10 10) None]]
           [mkImage "a" [mkRegion (mkBox 20 20 30 30) (Some 0.9%Q);
                         mkRegion (mkBox 0 0 10 10) (Some 0.3%Q)]]
           2 0.5).
  vm_compute. reflexivity.
Defined.

(** C9 as stated fails on the precision.  One ground-truth box; a wrong
    prediction of score 0.9 and a right one of score 0.3.  At threshold 0
    the precision is 1/2, at threshold 1/2 it is 0. *)
Lemma precision_can_decrease :
  ∃ r0 r1 r2,
    evaluate_pr calculate_iou
      [mkImage "a" [mkRegion (mkBox 0 0 10 10) None]]
      [mkImage "a" [mkRegion (mkBox 20 20 30 30) (Some 0.9%Q);
                    mkRegion (mkBox 0 0 10 10) (Some 0.3%Q)]]
      2 0.5 = Ok [r0; r1; r2] ∧
    (threshold r0 < threshold r1)%Q ∧
    ¬ (precision r0 <= precision r1)%Q.
Proof.
  eexists _, _, _. split; [vm_compute; reflexivity|].
  split; [reflexivity|]. intros Hle. vm_compute in Hle. by apply Hle.
Qed.

(** Where the two sweeps agree.  On two documents that list the same
    locations in the same order, each once, [evaluate_pr] and
    [evaluate_pr_naive] give the same outcome for every [Jaccard_min], and
    for every [N] when all predictions carry a score, for every [N >= 0]
    otherwise: the same list, or the same exception. *)
Theorem evaluate_pr_refines_naive (iou : Box → Box → Q)
    (annotations predictions : list Image) (N : Z) (Jaccard_min : Q) :
  location <$> annotations = location <$> predictions →
  NoDup (location <$> predictions) →
  well_scored predictions ∨ 0 ≤ N →
  evaluate_pr iou annotations predictions N Jaccard_min
  = evaluate_pr_naive iou annotations predictions N Jaccard_min.
Proof.
  intros Hloc Hnd Hor.
  destruct (Z.lt_trichotomy N 0) as [Hneg|[->|Hpos]].
  - destruct Hor as [Hws|?]; [|lia].
    unfold evaluate_pr, evaluate_pr_naive. rewrite (thresholds_neg N Hneg). simpl.
    by destruct (sorted_predictions_ok predictions Hws) as (sp & -> & _).
  - reflexivity.
  - destruct (decide (well_scored predictions)) as [Hws|Hno].
    + rewrite evaluate_pr_pos, evaluate_pr_naive_pos by done. f_equal.
      apply Forall_fmap_ext_1, Forall_forall. intros thr _.
      by rewrite aligned_sums.
    + unfold evaluate_pr, evaluate_pr_naive. rewrite (thresholds_pos N Hpos). simpl.
      unfold sorted_predictions. rewrite (sorted_predictions_raise _ _ Hno). simpl.
      destruct (threshold_list_nonempty N Hpos) as [ths ->]. cbn [mapM].
      rewrite naive_totals_raise; [done|].
      intros Hall. apply Hno. unfold well_scored.
      rewrite <- (snd_zip annotations predictions).
      * apply Forall_fmap. exact Hall.
      * apply (f_equal length) in Hloc. rewrite !length_fmap in Hloc. lia.
Qed.

Lemma evaluate_pr_refines_naive_witness :
  evaluate_pr calculate_iou
    [mkImage "a" [mkRegion (mkBox 0 0 10 10) None];
     mkImage "b" [mkRegion (mkBox 20 20 30 30) None]]
    [mkImage "a" [mkRegion (mkBox 0 0 10 10) (Some 0.9%Q)];
     mkImage "b" [mkRegion (mkBox 0 0 10 10) (Some 0.4%Q)]] 2 0.5
  = evaluate_pr_naive calculate_iou
    [mkImage "a" [mkRegion (mkBox 0 0 10 10) None];
     mkImage "b" [mkRegion (mkBox 20 20 30 30) None]]
    [mkImage "a" [mkRegion (mkBox 0 0 10 10) (Some 0.9%Q)];
     mkImage "b" [mkRegion (mkBox 0 0 10 10) (Some 0.4%Q)]] 2 0.5.
Proof.
  apply evaluate_pr_refines_naive.
  - reflexivity.
  - refine (bool_decide_unpack _ _). vm_compute. exact I.
  - right. lia.
Defined.

(** C6.  The two sweeps are not the same function.  On two documents that
    hold the same two images in different orders, [evaluate_pr] finds the
    predictions of each image by its location, gets both boxes right and
    returns precision 2/2 and recall 2/2 at the thresholds 0 and 1;
    [evaluate_pr_naive] pairs the images by position, gets no box right and
    returns precision 0/2 and recall 0/2. *)
Theorem evaluate_pr_differs_from_naive :
  let annotations :=
    [mkImage "a" [mkRegion (mkBox 0 0 10 10) None];
     mkImage "b" [mkRegion (mkBox 20 20 30 30) None]] in
  let predictions :=
    [mkImage "b" [mkRegion (mkBox 20 20 30 30) (Some 1%Q)];
     mkImage "a" [mkRegion (mkBox 0 0 10 10) (Some 1%Q)]] in
  evaluate_pr calculate_iou annotations predictions 1 0.5
    = Ok [mkPoint (2 # 2) (2 # 2) 0; mkPoint (2 # 2) (2 # 2) 1] ∧
  evaluate_pr_naive calculate_iou annotations predictions 1 0.5
    = Ok [mkPoint (0 # 2) (0 # 2) 0; mkPoint (0 # 2) (0 # 2) 1].
Proof. split; vm_compute; reflexivity. Qed.

Lemma paired_predictions_filter (P : Image → Prop) `{!∀ img, Decision (P img)}
    predictions loc :
  (∀ img, location img = loc → P img) →
  paired_predictions (filter P predictions) loc = paired_predictions predictions loc.
Proof.
  intros HP. unfold paired_predictions.
  assert (filter (λ img, location img = loc) (filter P predictions)
          = filter (λ img, location img = loc) predictions) as ->; [|done].
  induction predictions as [|img rest IH]; [done|].
  rewrite (filter_cons P). destruct (decide (P img)) as [Hin|Hout].
  - by rewrite !filter_cons, IH.
  - rewrite (filter_cons _ img rest), decide_False; [done|].
    intros Hloc. by apply Hout, HP.
Qed.

(** C5, as the code has it.  With every prediction carrying a score, at
    each threshold [evaluate_pr] adds up, over the ground-truth images, the
    result of [evaluate_image] on the image and the predictions of the last
    prediction image at its location.  A ground-truth image without a
    prediction image adds its number of boxes to FN and nothing to TP and
    FP.  The prediction images at locations of no ground-truth image add
    nothing: the totals are the same without them.  Every point of the
    list returned holds the precision and the recall of the totals at its
    own threshold. *)
Theorem sweep_pairing (iou : Box → Box → Q)
    (annotations predictions : list Image) (Jaccard_min : Q) :
  well_scored predictions →
  (∀ thr, ∃ sorted_preds,
     sorted_predictions predictions = Ok sorted_preds ∧
     pr_totals iou sorted_preds annotations thr Jaccard_min (0, 0, 0)
       = Ok (pr_sum iou annotations predictions thr Jaccard_min)) ∧
  (∀ thr gt_img,
     evaluate_image iou (annotated_regions gt_img)
       (paired_predictions predictions (location gt_img)) thr Jaccard_min
     = Ok (image_counts iou (annotated_regions gt_img)
             (paired_predictions predictions (location gt_img)) thr Jaccard_min)) ∧
  (∀ thr gt_img,
     (∀ pred_img, pred_img ∈ predictions → location pred_img ≠ location gt_img) →
     image_counts iou (annotated_regions gt_img)
       (paired_predictions predictions (location gt_img)) thr Jaccard_min
     = (0, Z.of_nat (length (annotated_regions gt_img)), 0)) ∧
  (∀ thr,
     pr_sum iou annotations predictions thr Jaccard_min
     = pr_sum iou annotations
         (filter (λ pred_img, location pred_img ∈ location <$> annotations)
                 predictions)
         thr Jaccard_min) ∧
  (∀ N results,
     evaluate_pr iou annotations predictions N Jaccard_min = Ok results →
     Forall (λ point,
               point = point_of
                         (pr_sum iou annotations predictions (threshold point)
                            Jaccard_min)
                         (threshold point))
            results).
Proof.
  intros Hws. split; [|split; [|split; [|split]]].
  - intros thr. destruct (sorted_predictions_ok predictions Hws) as (sp & Hsp & Hl).
    exists sp. split; [done|]. by apply pr_totals_ok.
  - intros thr gt_img. apply evaluate_image_scored. by apply paired_predictions_scored.
  - intros thr gt_img Hno. rewrite (paired_predictions_missing _ _ Hno).
    apply image_counts_no_predictions.
  - intros thr. unfold pr_sum. f_equal.
    apply Forall_fmap_ext_1, Forall_forall. intros gt_img Hgt.
    rewrite paired_predictions_filter; [done|].
    intros img ->. by apply list_elem_of_fmap_2.
  - intros N results Hres.
    destruct (Z.lt_trichotomy N 0) as [Hneg|[->|Hpos]]; [| done |].
    + unfold evaluate_pr in Hres. rewrite (thresholds_neg N Hneg) in Hres.
      simpl in Hres. destruct (sorted_predictions predictions); [|done].
      simpl in Hres. injection Hres as <-. constructor.
    + rewrite evaluate_pr_pos in Hres by done. injection Hres as <-.
      apply Forall_fmap, Forall_forall. intros thr _. simpl.
      by rewrite threshold_point_of.
Qed.

Lemma sweep_pairing_witness :
  image_counts calculate_iou [mkRegion (mkBox 20 20 30 30) None]
    (paired_predictions
       [mkImage "a" [mkRegion (mkBox 0 0 10 10) (Some 0.9%Q)]] "c")
    0.5 0.5
  = (0, Z.of_nat 1, 0).
Proof.
  assert (well_scored [mkImage "a" [mkRegion (mkBox 0 0 10 10) (Some 0.9%Q)]]) as Hws
    by (refine (bool_decide_unpack _ _); vm_compute; exact I).
  destruct (sweep_pairing calculate_iou
              [mkImage "a" [mkRegion (mkBox 0 0 10 10) None];
               mkImage "c" [mkRegion (mkBox 20 20 30 30) None]]
              _ 0.5 Hws) as (_ & _ & Hmissing & _).
  apply (Hmissing 0.5%Q (mkImage "c" [mkRegion (mkBox 20 20 30 30) None])).
  intros pred_img Hin. apply list_elem_of_singleton in Hin as ->. discriminate.
Defined.

(** C5 as stated fails.  Image "b" has a prediction and no ground truth:
    its box, which passes the threshold 0, is counted by neither sweep, and
    FP stays 0. *)
Lemma one_sided_image_not_counted :
  (sorted_preds ← sorted_predictions
                     [mkImage "a" [mkRegion (mkBox 0 0 10 10) (Some 1%Q)];
                      mkImage "b" [mkRegion (mkBox 20 20 30 30) (Some 1%Q)]];
   pr_totals calculate_iou sorted_preds
     [mkImage "a" [mkRegion (mkBox 0 0 10 10) None]] 0 0.5 (0, 0, 0))
  = Ok (1, 0, 0) ∧
  length (filter (passes 0) [mkRegion (mkBox 20 20 30 30) (Some 1%Q)]) = 1%nat ∧
  naive_totals calculate_iou
    (zip [mkImage "a" [mkRegion (mkBox 0 0 10 10) None]]
         [mkImage "a" [mkRegion (mkBox 0 0 10 10) (Some 1%Q)];
          mkImage "b" [mkRegion (mkBox 20 20 30 30) (Some 1%Q)]])
    0 0.5 (0, 0, 0) = Ok (1, 0, 0).
Proof.
  repeat split; vm_compute; reflexivity.
Qed.

(** * Further facts on the merger *)

(** ** Boxes that do not join *)

Section SweepOutput.
Variable plus : Q → Q → Q.

Lemma left_of_lt thr a b : left_of plus thr a b ↔ (plus (xmax a) thr < xmin b)%Q.
Proof.
  unfold left_of. rewrite <- not_true_iff_false, Qle_bool_iff.
  split; [apply Qnot_le_lt | apply Qlt_not_le].
Qed.

Lemma scan_step_fail thr st p :
  (p.1 ∈ remaining st → Qle_bool (xmin p.2) (plus (current_xmax st) thr) = false) →
  scan_step plus thr st p = st.
Proof.
  destruct p as [j box2]. simpl. intros Hfail. unfold scan_step.
  destruct (bool_decide (j ∈ remaining st)) eqn:Hj; [|done].
  by rewrite (Hfail (bool_decide_eq_true_1 _ Hj)).
Qed.

Lemma scan_all_fail thr l st :
  (∀ p, p ∈ l → p.1 ∈ remaining st →
        Qle_bool (xmin p.2) (plus (current_xmax st) thr) = false) →
  fold_left (scan_step plus thr) l st = st.
Proof.
  induction l as [|p l IH]; intros Hfail; simpl; [done|].
  rewrite scan_step_fail by (apply Hfail; left).
  apply IH. intros q Hq. apply Hfail. by right.
Qed.

(** On boxes sorted by [xmin] that are all still to be consumed, the scan
    takes a first run of them and leaves the others, which all start more
    than the threshold to the right of where the group ends. *)
Lemma scan_run thr l st :
  StronglySorted (λ p q : nat * Box, (xmin p.2 <= xmin q.2)%Q) l →
  NoDup l.*1 →
  (∀ p, p ∈ l → p.1 ∈ remaining st) →
  ∃ run tail,
    l = run ++ tail ∧
    fold_left (scan_step plus thr) l st
      = {| joined := joined st ++ run;
           remaining := remaining st ∖ list_to_set run.*1;
           current_xmax := py_max (current_xmax st) (xmax <$> run.*2) |} ∧
    ∀ p, p ∈ tail →
      Qle_bool (xmin p.2) (plus (py_max (current_xmax st) (xmax <$> run.*2)) thr) = false.
Proof.
  intros Hsorted. revert st.
  induction Hsorted as [|[j box2] l Hl IH Hhd]; intros st Hnd Hrem.
  - exists [], []. split; [done|]. split; [|intros p Hp; by apply elem_of_nil in Hp].
    destruct st as [js rem cur]. simpl. f_equal; [by rewrite app_nil_r | set_solver].
  - simpl in Hnd. apply NoDup_cons in Hnd as [Hj Hnd].
    rewrite Forall_forall in Hhd.
    assert (j ∈ remaining st) as Hjr by (apply (Hrem (j, box2)); left).
    destruct (Qle_bool (xmin box2) (plus (current_xmax st) thr)) eqn:Htest.
    + assert (scan_step plus thr st (j, box2)
              = {| joined := joined st ++ [(j, box2)];
                   remaining := remaining st ∖ {[j]};
                   current_xmax := py_max2 (current_xmax st) (xmax box2) |}) as Hstep.
      { unfold scan_step. rewrite bool_decide_eq_true_2 by done. by rewrite Htest. }
      destruct (IH {| joined := joined st ++ [(j, box2)];
                      remaining := remaining st ∖ {[j]};
                      current_xmax := py_max2 (current_xmax st) (xmax box2) |} Hnd)
        as (run & tail & -> & Hfold & Htail).
      { intros p Hp. simpl.
        apply elem_of_difference. split; [apply Hrem; by right|].
        intros Hpj. apply elem_of_singleton in Hpj. apply Hj. rewrite <- Hpj.
        by apply list_elem_of_fmap_2. }
      exists ((j, box2) :: run), tail. split; [done|].
      cbn [fold_left]. rewrite Hstep, Hfold. simpl in *.
      split; [|exact Htail].
      f_equal; [by rewrite <- app_assoc | set_solver].
    + exists [], ((j, box2) :: l). split; [done|].
      assert (∀ p, p ∈ (j, box2) :: l →
                Qle_bool (xmin p.2) (plus (current_xmax st) thr) = false) as Hfail.
      { intros p Hp. apply elem_of_cons in Hp as [->|Hp]; [done|].
        apply not_true_iff_false. rewrite Qle_bool_iff. intros Hle.
        apply not_true_iff_false in Htest. apply Htest, Qle_bool_iff.
        eapply Qle_trans; [|exact Hle]. by apply (Hhd p). }
      split; [|exact Hfail].
      rewrite scan_all_fail by (intros; by apply Hfail).
      destruct st as [js rem cur]. simpl. f_equal; [by rewrite app_nil_r | set_solver].
Qed.

(** ** What the sweep puts out *)

Lemma select_remaining_snoc rem l p :
  select_remaining rem (l ++ [p])
  = select_remaining rem l ++ (if decide (p.1 ∈ rem) then [p] else []).
Proof.
  unfold select_remaining. rewrite filter_app. f_equal.
Qed.

Lemma select_remaining_ext rem rem' l :
  (∀ p, p ∈ l → (p.1 ∈ rem ↔ p.1 ∈ rem')) →
  select_remaining rem l = select_remaining rem' l.
Proof.
  unfold select_remaining. induction l as [|p l IH]; intros Hext; [done|].
  rewrite !filter_cons, IH by (intros q Hq; apply Hext; by right).
  destruct (Hext p) as [H1 H2]; [left|].
  destruct (decide (p.1 ∈ rem)), (decide (p.1 ∈ rem')); tauto.
Qed.

Lemma left_of_envelope thr o box1 js :
  left_of plus thr o box1 → (∀ b, b ∈ js → left_of plus thr o b) →
  left_of plus thr o (envelope box1 js).
Proof.
  intros H1 Hjs. unfold left_of.
  destruct (py_min_is_min (xmin box1) (map xmin js)) as [Hin _].
  change (xmin (envelope box1 js)) with (py_min (xmin box1) (map xmin js)).
  apply elem_of_cons in Hin as [->|Hin]; [exact H1|].
  apply list_elem_of_fmap in Hin as (b & -> & Hb). by apply Hjs.
Qed.

Lemma swept_single thr ms ss i box1 rest :
  swept plus thr ms ss ((i, box1) :: rest) →
  (∀ p, p ∈ rest → left_of plus thr box1 p.2) →
  swept plus thr ms (ss ++ [box1]) rest.
Proof.
  intros (Hms & Hss & Hcross & Htail) Hbox.
  assert (∀ o, o ∈ ms ++ ss → left_of plus thr o box1) as Hleft.
  { intros o Ho. apply (Htail o (i, box1)); [done | left]. }
  split; [done|]. split; [|split].
  - apply StronglySorted_app_2; [|done|repeat constructor].
    intros s b Hs Hb. apply list_elem_of_singleton in Hb as ->.
    apply Hleft, elem_of_app. by right.
  - intros g s Hg Hs. apply elem_of_app in Hs as [Hs|Hs]; [by apply Hcross|].
    apply list_elem_of_singleton in Hs as ->. left.
    apply Hleft, elem_of_app. by left.
  - intros o p Ho Hp. rewrite app_assoc in Ho. apply elem_of_app in Ho as [Ho|Ho].
    + apply Htail; [done | by right].
    + apply list_elem_of_singleton in Ho as ->. by apply Hbox.
Qed.

Lemma swept_group thr ms ss i box1 run tail :
  swept plus thr ms ss ((i, box1) :: run ++ tail) →
  (∀ p, p ∈ tail → left_of plus thr (envelope box1 run.*2) p.2) →
  swept plus thr (ms ++ [envelope box1 run.*2]) ss tail.
Proof.
  intros (Hms & Hss & Hcross & Htail) Hbox.
  assert (∀ o, o ∈ ms ++ ss → left_of plus thr o (envelope box1 run.*2)) as Hleft.
  { intros o Ho. apply left_of_envelope.
    - apply (Htail o (i, box1)); [done | left].
    - intros b Hb. apply list_elem_of_fmap in Hb as (p & -> & Hp).
      apply Htail; [done|]. right. apply elem_of_app. by left. }
  split; [|split; [done|split]].
  - apply StronglySorted_app_2; [|done|repeat constructor].
    intros g b Hg Hb. apply list_elem_of_singleton in Hb as ->.
    apply Hleft, elem_of_app. by left.
  - intros g s Hg Hs. apply elem_of_app in Hg as [Hg|Hg]; [by apply Hcross|].
    apply list_elem_of_singleton in Hg as ->. right.
    apply Hleft, elem_of_app. by right.
  - intros o p Ho Hp. rewrite <- app_assoc in Ho.
    apply elem_of_app in Ho as [Ho|Ho];
      [|apply elem_of_cons in Ho as [->|Ho]; [by apply Hbox|]].
    + apply Htail; [apply elem_of_app; by left|].
      right. apply elem_of_app. by right.
    + apply Htail; [apply elem_of_app; by right|].
      right. apply elem_of_app. by right.
Qed.

Lemma sweep_loop_swept thr boxes :
  ∀ done_ consumed tail st,
  boxes = consumed ++ tail →
  StronglySorted (λ p q : nat * Box, (xmin p.2 <= xmin q.2)%Q) boxes →
  NoDup (done_ ++ boxes).*1 →
  (∀ p, p ∈ consumed → p.1 ∉ remaining_single_axle st) →
  (∀ p, p ∈ tail → p.1 ∈ remaining_single_axle st) →
  swept plus thr (merged_boxes st)
        (select_remaining (remaining_single_axle st) done_).*2 tail →
  swept plus thr (merged_boxes (sweep_loop plus thr boxes st))
        (select_remaining (remaining_single_axle (sweep_loop plus thr boxes st))
           (done_ ++ boxes)).*2 [].
Proof.
  induction boxes as [|[i box1] rest IH];
    intros done_ consumed tail st Hb Hsorted Hnd Hcons Htail Hsw.
  - symmetry in Hb. apply app_eq_nil in Hb as [-> ->].
    simpl. by rewrite app_nil_r.
  - apply StronglySorted_inv in Hsorted as [Hsorted Hhd].
    rewrite fmap_app in Hnd. apply NoDup_app in Hnd as (Hnd1 & Hnd2 & Hnd3).
    rewrite fmap_cons in Hnd3. apply NoDup_cons in Hnd3 as [Hi Hnd3]. simpl in Hi.
    assert (NoDup ((done_ ++ [(i, box1)]) ++ rest).*1) as Hnd'.
    { rewrite <- app_assoc, fmap_app. apply NoDup_app. split; [done|].
      split; [exact Hnd2|]. simpl. by apply NoDup_cons. }
    assert (i ∉ done_.*1) as Hid.
    { intros Hin. apply (Hnd2 i Hin). rewrite fmap_cons. left. }
    replace (done_ ++ (i, box1) :: rest) with ((done_ ++ [(i, box1)]) ++ rest)
      by (by rewrite <- app_assoc).
    destruct consumed as [|c consumed].
    + (* the head is a seed *)
      simpl in Hb. subst tail.
      assert (i ∈ remaining_single_axle st) as Hir by (apply (Htail (i, box1)); left).
      destruct (scan_run thr rest
                  {| joined := []; remaining := remaining_single_axle st;
                     current_xmax := xmax box1 |} Hsorted Hnd3)
        as (run & tail' & Hrest & Hfold & Hfail).
      { intros p Hp. simpl. apply Htail. by right. }
      simpl in Hfold, Hfail.
      cbn [sweep_loop]. rewrite bool_decide_eq_true_2 by done.
      unfold scan_from. rewrite Hfold. cbn [joined remaining].
      destruct run as [|r run].
      * (* nothing joins: the seed is passed as single *)
        simpl in Hrest. subst tail'. cbn [length Nat.ltb Nat.leb].
        replace (remaining_single_axle st ∖ list_to_set ([] : list (nat * Box)).*1)
          with (remaining_single_axle st) by set_solver.
        apply (IH (done_ ++ [(i, box1)]) [] rest); [done|done|done| | |]; simpl.
        -- intros p Hp. by apply elem_of_nil in Hp.
        -- intros p Hp. apply Htail. by right.
        -- rewrite select_remaining_snoc, decide_True by done.
           rewrite fmap_app. apply (swept_single thr _ _ i); [done|].
           intros p Hp. by apply Hfail.
      * (* a group is put out *)
        set (g := r :: run) in *.
        assert ((1 <? length ((i, box1) :: g))%nat = true) as -> by done.
        assert (∀ p, p ∈ g → p.1 ∈ g.*1) as Hg1 by (intros; by apply list_elem_of_fmap_2).
        assert (NoDup (g ++ tail').*1) as Hnd4 by (by rewrite <- Hrest).
        rewrite fmap_app in Hnd4. apply NoDup_app in Hnd4 as (_ & Hnd4 & _).
        apply (IH (done_ ++ [(i, box1)]) g tail'); [done|done|done| | |];
          cbn [remaining_single_axle merged_boxes].
        -- intros p Hp. set_solver.
        -- intros p Hp.
           assert (p ∈ rest) as Hpr by (rewrite Hrest; apply elem_of_app; by right).
           rewrite !elem_of_difference, elem_of_list_to_set, elem_of_singleton.
           split; [split|].
           ++ apply Htail. by right.
           ++ intros Hpg. apply (Hnd4 p.1 Hpg). by apply list_elem_of_fmap_2.
           ++ intros Hpi. apply Hi. rewrite <- Hpi. by apply list_elem_of_fmap_2.
        -- rewrite select_remaining_snoc.
           rewrite decide_False by set_solver. rewrite app_nil_r.
           rewrite (select_remaining_ext _ (remaining_single_axle st)).
           ++ apply (swept_group thr _ _ i); [by rewrite <- Hrest|].
              intros p Hp. unfold left_of. by apply Hfail.
           ++ intros p Hp.
              assert (p.1 ∈ done_.*1) as Hpd by (by apply list_elem_of_fmap_2).
              assert (p.1 ∉ g.*1).
              { intros Hpg. apply (Hnd2 p.1 Hpd). rewrite fmap_cons. right.
                rewrite Hrest, fmap_app. apply elem_of_app. by left. }
              assert (p.1 ≠ i) by (intros Hpi; apply Hid; by rewrite <- Hpi).
              rewrite !elem_of_difference, elem_of_list_to_set, elem_of_singleton.
              tauto.
    + (* the head was consumed by an earlier group *)
      simpl in Hb. injection Hb as <- ->.
      assert (i ∉ remaining_single_axle st) as Hir by (apply (Hcons (i, box1)); left).
      cbn [sweep_loop]. rewrite bool_decide_eq_false_2 by done.
      apply (IH (done_ ++ [(i, box1)]) consumed tail); [done|done|done| |done|].
      * intros p Hp. apply Hcons. by right.
      * rewrite select_remaining_snoc, decide_False by done. by rewrite app_nil_r.
Qed.

Lemma StronglySorted_filter {A} (R : A → A → Prop) (P : A → Prop)
    `{!∀ x, Decision (P x)} l :
  StronglySorted R l → StronglySorted R (filter P l).
Proof.
  induction 1 as [|x l _ IH Hx]; [constructor|].
  rewrite filter_cons. destruct (decide (P x)); [|done].
  constructor; [done|]. rewrite Forall_forall in Hx. apply Forall_forall.
  intros y Hy. apply list_elem_of_filter in Hy as [_ Hy]. by apply Hx.
Qed.

Lemma enum_from_lift {A} (R : A → A → Prop) k (l : list A) :
  StronglySorted R l → StronglySorted (λ p q : nat * A, R p.2 q.2) (enum_from k l).
Proof.
  intros Hl. revert k. induction Hl as [|x l _ IH Hx]; intros k; simpl; constructor.
  - apply IH.
  - rewrite Forall_forall in Hx. apply Forall_forall. intros [j y] Hin. simpl.
    apply Hx. apply enum_from_elem in Hin as [_ Hin]. by eapply list_elem_of_lookup_2.
Qed.

Lemma enumerate_sorted_by_xmin boxes :
  StronglySorted (λ p q : nat * Box, (xmin p.2 <= xmin q.2)%Q)
                 (enumerate (sort_by_xmin boxes)).
Proof. apply (enum_from_lift (λ a b, (xmin a <= xmin b)%Q)), sort_by_xmin_ascending. Qed.

Lemma sweep_image_swept boxes thr :
  swept plus thr (grouped_axles (merge_image plus boxes thr))
            (single_axle (merge_image plus boxes thr)) [].
Proof.
  apply (sweep_loop_swept thr (enumerate (sort_by_xmin boxes)) []
           [] (enumerate (sort_by_xmin boxes))); simpl.
  - done.
  - apply enumerate_sorted_by_xmin.
  - apply enumerate_NoDup.
  - intros p Hp. by apply elem_of_nil in Hp.
  - intros p Hp. apply elem_of_list_to_set. rewrite <- enumerate_sorted_fst.
    by apply list_elem_of_fmap_2.
  - split; [constructor|]. split; [constructor|].
    split; intros ? ? Hin; by apply elem_of_nil in Hin.
Qed.

(** X1.  In what [merge_boxes] returns for an image, the grouped boxes go
    from left to right, each starting after [xmax + overlap_threshold] of
    every one before it, the sum as the program computes it; so do the
    single boxes; and between a grouped box and a single box the same holds
    one way or the other.  No box put out passes the test of the scan
    against another one. *)
Theorem merged_boxes_apart (boxes : list Box) (overlap_threshold : Q) :
  StronglySorted (λ a b, (plus (xmax a) overlap_threshold < xmin b)%Q)
                 (grouped_axles (merge_image plus boxes overlap_threshold)) ∧
  StronglySorted (λ a b, (plus (xmax a) overlap_threshold < xmin b)%Q)
                 (single_axle (merge_image plus boxes overlap_threshold)) ∧
  ∀ g s, g ∈ grouped_axles (merge_image plus boxes overlap_threshold) →
         s ∈ single_axle (merge_image plus boxes overlap_threshold) →
         (plus (xmax g) overlap_threshold < xmin s)%Q ∨
         (plus (xmax s) overlap_threshold < xmin g)%Q.
Proof.
  destruct (sweep_image_swept boxes overlap_threshold) as (Hms & Hss & Hcross & _).
  split; [|split].
  - eapply StronglySorted_mono; [|exact Hms]. intros a b. apply left_of_lt.
  - eapply StronglySorted_mono; [|exact Hss]. intros a b. apply left_of_lt.
  - intros g s Hg Hs. rewrite <- !left_of_lt. by apply Hcross.
Qed.

(** ** Merging what was left alone *)

Lemma sweep_loop_apart thr l k st :
  StronglySorted (left_of plus thr) l → sweep_loop plus thr (enum_from k l) st = st.
Proof.
  intros Hl. revert k st.
  induction Hl as [|box1 l _ IH Hbox]; intros k st; simpl; [done|].
  destruct (bool_decide (k ∈ remaining_single_axle st)); [|apply IH].
  unfold scan_from. rewrite scan_all_fail.
  - simpl. rewrite IH. by destruct st.
  - intros [j box2] Hin _. simpl.
    rewrite Forall_forall in Hbox. apply (Hbox box2).
    apply enum_from_elem in Hin as [_ Hin]. by eapply list_elem_of_lookup_2.
Qed.

Lemma select_remaining_all rem l :
  (∀ p, p ∈ l → p.1 ∈ rem) → select_remaining rem l = l.
Proof.
  unfold select_remaining. induction l as [|p l IH]; intros Hall; [done|].
  rewrite filter_cons_True by (apply Hall; left).
  rewrite IH; [done|]. intros q Hq. apply Hall. by right.
Qed.

Lemma merge_image_apart boxes thr :
  StronglySorted (λ a b, (xmin a <= xmin b)%Q) boxes →
  StronglySorted (left_of plus thr) boxes →
  merge_image plus boxes thr = {| grouped_axles := []; single_axle := boxes |}.
Proof.
  intros Hsorted Hapart.
  assert (sort_by_xmin boxes = boxes) as Hsort.
  { apply sort_by_ordered_id. eapply StronglySorted_mono; [|exact Hsorted].
    intros a b. unfold xmin_before. by rewrite Qltb_ge. }
  unfold merge_image, sweep_image. rewrite Hsort. unfold enumerate.
  rewrite sweep_loop_apart by done. simpl. f_equal.
  rewrite select_remaining_all; [apply enum_from_snd|].
  intros p Hp. apply elem_of_list_to_set.
  rewrite <- (enum_from_fst 0 boxes). by apply list_elem_of_fmap_2.
Qed.

Lemma single_axle_sorted boxes thr :
  StronglySorted (λ a b, (xmin a <= xmin b)%Q) (single_axle (merge_image plus boxes thr)).
Proof.
  simpl. unfold select_remaining.
  eapply (StronglySorted_fmap snd (λ p q : nat * Box, (xmin p.2 <= xmin q.2)%Q));
    [done|].
  apply StronglySorted_filter, enumerate_sorted_by_xmin.
Qed.

Lemma merge_image_single_axle boxes thr :
  merge_image plus (single_axle (merge_image plus boxes thr)) thr
  = {| grouped_axles := []; single_axle := single_axle (merge_image plus boxes thr) |}.
Proof.
  apply merge_image_apart; [apply single_axle_sorted|].
  by destruct (sweep_image_swept boxes thr) as (_ & Hss & _).
Qed.

(** X2.  The boxes that [merge_boxes] leaves alone stay alone: merged again
    with the same threshold, they give no grouped box and come back as they
    are, in the same order, whatever the image they are filed under. *)
Theorem remerge_single_axle (single_axle_boxes_by_image : gmap string (list Box))
    (overlap_threshold : Q) :
  merge_boxes plus
    (single_axle <$> merge_boxes plus single_axle_boxes_by_image overlap_threshold)
    overlap_threshold
  = (λ merged, {| grouped_axles := []; single_axle := single_axle merged |})
      <$> merge_boxes plus single_axle_boxes_by_image overlap_threshold.
Proof.
  unfold merge_boxes. rewrite <- !map_fmap_compose. apply map_fmap_ext.
  intros image_id boxes _. simpl. apply merge_image_single_axle.
Qed.

(** X3.  Merging never yields more boxes than it was given, and every
    grouped box stands for at least two of them: twice the number of
    grouped boxes plus the number of single boxes is at most the number of
    input boxes. *)
Theorem merge_image_size (boxes : list Box) (overlap_threshold : Q) :
  (2 * length (grouped_axles (merge_image plus boxes overlap_threshold))
   + length (single_axle (merge_image plus boxes overlap_threshold))
   ≤ length boxes)%nat.
Proof.
  pose proof (sweep_partition plus boxes overlap_threshold) as Hperm.
  destruct (sweep_image_ok plus boxes overlap_threshold) as (_ & _ & _ & Hmerged).
  apply Permutation_length in Hperm.
  assert (length (enumerate (sort_by_xmin boxes)) = length boxes) as Hlen.
  { by rewrite <- (length_fmap fst), enumerate_sorted_fst, length_seq. }
  rewrite length_app, Hlen in Hperm.
  simpl. rewrite length_fmap.
  assert (2 * length (merged_boxes (sweep_image plus boxes overlap_threshold))
          ≤ length (concat (groups (sweep_image plus boxes overlap_threshold))))%nat; [|lia].
  clear Hperm Hlen.
  induction Hmerged as [|e g ms gs (i & box1 & js & -> & Hjs & _) _ IH]; simpl; [lia|].
  rewrite length_app. destruct js; [done|]. simpl. lia.
Qed.

(** ** The groups as runs of the sorted boxes *)










End SweepOutput.

(** * Facts on update_annotations and merge_axle_trees *)

Module MergerFacts.
Import Merger.

Section Rebuild.
Variable plus : Q → Q → Q.






Lemma filter_non_axle_idem (l : list Region) :
  filter non_axle (filter non_axle l) = filter non_axle l.
Proof. by apply list_filter_filter_l. Qed.

Lemma filter_non_axle_grouped (bs : list Box) :
  filter non_axle (grouped_region <$> bs) = [].
Proof.
  induction bs as [|b bs IH]; [done|].
  rewrite fmap_cons, filter_cons_False; [done|].
  intros [_ Hno]. apply Hno. left.
Qed.

Lemma filter_non_axle_single (bs : list Box) :
  filter non_axle (single_region <$> bs) = [].
Proof.
  induction bs as [|b bs IH]; [done|].
  rewrite fmap_cons, filter_cons_False; [done|].
  intros [Hno _]. apply Hno. left.
Qed.

(** X5.  Whatever the merged boxes it is given, [update_annotations] keeps
    the regions that carry neither axle tag as they are and in their order,
    puts them first, and drops every region that carries one; what it
    appends are regions of type "Box" with the single tag "grouped_axles"
    or "single_axle", and nothing when the image has no entry among the
    merged boxes.  Without an "images" key it fails with KeyError. *)
Theorem update_annotations_regions (annotation : Annotation)
    (merged_boxes_by_image : gmap string merged_image) :
  match images annotation with
  | None => update_annotations annotation merged_boxes_by_image = Raise KeyError
  | Some imgs =>
      ∃ imgs',
        update_annotations annotation merged_boxes_by_image
          = Ok {| images := Some imgs' |} ∧
        Forall2 (λ image image',
                   location image' = location image ∧
                   filter non_axle (annotated_regions image')
                     = filter non_axle (annotated_regions image) ∧
                   ∃ new,
                     annotated_regions image'
                       = filter non_axle (annotated_regions image) ++ new ∧
                     Forall (λ r, (tags r = ["grouped_axles"] ∨ tags r = ["single_axle"])
                                  ∧ region_type r = "Box") new ∧
                     (merged_boxes_by_image !! location image = None → new = []))
                imgs imgs'
  end.
Proof.
  unfold update_annotations.
  destruct (images annotation) as [imgs|]; [|done].
  eexists. split; [done|].
  apply Forall2_fmap_r, Forall_Forall2_diag, Forall_forall. intros image _.
  unfold update_image. split; [done|].
  destruct (merged_boxes_by_image !! location image) as [merged|]; cbn [annotated_regions].
  - split.
    + by rewrite !filter_app, filter_non_axle_idem, filter_non_axle_grouped,
        filter_non_axle_single, !app_nil_r.
    + eexists. split; [done|]. split; [|done].
      apply Forall_app. split; apply Forall_fmap, Forall_forall; intros b _; simpl; auto.
  - split; [apply filter_non_axle_idem|].
    exists []. by rewrite app_nil_r.
Qed.





End Rebuild.



End MergerFacts.

(** * Further facts on the evaluation *)

(** ** Predictions without a score *)

Lemma scored_boxes_filter regions :
  scored_boxes (filter (λ r, is_Some (score r)) regions) = scored_boxes regions.
Proof.
  induction regions as [|r rs IH]; [done|].
  rewrite filter_cons. destruct (score r) as [s|] eqn:Hs.
  - rewrite decide_True by (by eexists).
    by rewrite !(scored_boxes_cons_Some r _ s Hs), IH.
  - rewrite decide_False by (by intros [? ?]).
    by rewrite (scored_boxes_cons_None r rs Hs).
Qed.

(** X9.  At a positive threshold the predictions without a score count
    for nothing in [evaluate_image]: the outcome is the one obtained with
    these predictions removed. *)
Theorem evaluate_image_skips_unscored (iou : Box → Box → Q)
    (annotations predictions : list Region) (thr Jaccard_min : Q) :
  (0 < thr)%Q →
  evaluate_image iou annotations predictions thr Jaccard_min
    = evaluate_image iou annotations
        (filter (λ r, is_Some (score r)) predictions) thr Jaccard_min.
Proof.
  intros Hthr.
  assert (pred_boxes_above predictions thr
          = Ok (filter (above thr) (scored_boxes predictions))) as Hok.
  { destruct (pred_boxes_above_raise predictions thr) as [H|H]; [done|].
    pose proof (pred_boxes_above_spec predictions thr) as Hspec.
    rewrite H in Hspec. destruct Hspec as (_ & Hle & _).
    destruct (Qlt_not_le _ _ Hthr Hle). }
  unfold evaluate_image. rewrite Hok.
  rewrite pred_boxes_above_scored.
  - by rewrite scored_boxes_filter.
  - apply Forall_forall. intros r Hr. by apply list_elem_of_filter in Hr as [Hr _].
Qed.

Lemma evaluate_image_skips_unscored_witness :
  evaluate_image calculate_iou
    [mkRegion (mkBox 0 0 10 10) None]
    [mkRegion (mkBox 50 50 60 60) None; mkRegion (mkBox 0 0 10 10) (Some 0.9%Q)]
    0.5 0.5
  = evaluate_image calculate_iou
      [mkRegion (mkBox 0 0 10 10) None]
      (filter (λ r, is_Some (score r))
         [mkRegion (mkBox 50 50 60 60) None; mkRegion (mkBox 0 0 10 10) (Some 0.9%Q)])
      0.5 0.5.
Proof.
  apply (evaluate_image_skips_unscored calculate_iou
           [mkRegion (mkBox 0 0 10 10) None]
           [mkRegion (mkBox 50 50 60 60) None; mkRegion (mkBox 0 0 10 10) (Some 0.9%Q)]
           0.5 0.5).
  reflexivity.
Defined.

(** ** Counts that make sense *)

Section Counts.
Variable iou : Box → Box → Q.

Lemma match_step_matched_ok gt_boxes Jaccard_min st ps :
  (0 < Jaccard_min)%Q →
  matched_ok (length gt_boxes) st →
  matched_ok (length gt_boxes) (match_step iou gt_boxes Jaccard_min st ps).
Proof.
  intros Hpos (Hsub & Htp & Hfp). unfold match_step, best_match.
  destruct (best_fold iou (matched_gt st) ps.1 (enumerate gt_boxes) 0%Q None
              (enum_from_sorted 0 gt_boxes))
    as (b & i & -> & Hb & Hall & Hcase).
  destruct (Qle_bool Jaccard_min b && bool_decide (i ∉ matched_gt st)) eqn:Hc.
  - apply andb_true_iff in Hc as [Hj Hi]. apply Qle_bool_iff in Hj.
    destruct Hcase as [[= -> ->]|(idx & gt & Hin & Hnm & -> & -> & _)].
    { exfalso. apply (Qlt_irrefl 0). by eapply Qlt_le_trans. }
    apply enumerate_elem, lookup_lt_Some in Hin.
    split; [|split]; simpl.
    + apply union_subseteq. split; [|done].
      apply singleton_subseteq_l, elem_of_list_to_set, list_elem_of_fmap_2.
      apply elem_of_seq. lia.
    + rewrite size_union by set_solver. rewrite size_singleton. lia.
    + done.
  - split; [|split]; simpl; [done|done|lia].
Qed.

Lemma match_fold_matched_ok gt_boxes Jaccard_min pred_boxes st :
  (0 < Jaccard_min)%Q →
  matched_ok (length gt_boxes) st →
  matched_ok (length gt_boxes)
    (fold_left (match_step iou gt_boxes Jaccard_min) pred_boxes st).
Proof.
  intros Hpos. revert st.
  induction pred_boxes as [|ps l IH]; intros st Hok; simpl; [done|].
  by apply IH, match_step_matched_ok.
Qed.

Lemma matched_ok_bound n st : matched_ok n st → 0 ≤ true_positives st ≤ Z.of_nat n.
Proof.
  intros (Hsub & -> & _). split; [lia|].
  apply subseteq_size in Hsub.
  rewrite size_list_to_set in Hsub
    by (apply (NoDup_fmap_2 Some), NoDup_seq).
  rewrite length_fmap, length_seq in Hsub. lia.
Qed.

Lemma match_fold_fp gt_boxes Jaccard_min pred_boxes st :
  false_positives st
    ≤ false_positives (fold_left (match_step iou gt_boxes Jaccard_min) pred_boxes st).
Proof.
  revert st. induction pred_boxes as [|ps l IH]; intros st; simpl; [lia|].
  etrans; [|apply IH]. unfold match_step.
  destruct (best_match iou gt_boxes (matched_gt st) ps.1) as [b i].
  destruct (Qle_bool Jaccard_min b && bool_decide (i ∉ matched_gt st)); simpl; lia.
Qed.

Lemma count_matches_bounds gt_boxes pred_boxes Jaccard_min tp fn fp :
  count_matches iou gt_boxes pred_boxes Jaccard_min = (tp, fn, fp) →
  0 ≤ tp ∧ 0 ≤ fp ∧
  ((0 < Jaccard_min)%Q → tp ≤ Z.of_nat (length gt_boxes) ∧ 0 ≤ fn).
Proof.
  intros Hc.
  pose proof (count_matches_counts iou _ _ _ _ _ _ Hc) as (Hgt & Hpred & Htp & _).
  split; [done|].
  assert (0 < Jaccard_min → tp ≤ Z.of_nat (length gt_boxes))%Q as Hle.
  { intros Hpos. unfold count_matches in Hc.
    destruct gt_boxes as [|g gs]; [injection Hc as <- _ _; simpl; lia|].
    destruct pred_boxes as [|ps l]; [injection Hc as <- _ _; lia|].
    injection Hc as <- _ _.
    apply (matched_ok_bound (length (g :: gs))), match_fold_matched_ok; [done|].
    split; [set_solver|]. split; [|done].
    cbn [true_positives matched_gt]. by rewrite size_empty. }
  split.
  - unfold count_matches in Hc.
    destruct gt_boxes as [|g gs]; [injection Hc as _ _ <-; lia|].
    destruct pred_boxes as [|ps l]; [injection Hc as _ _ <-; simpl; lia|].
    injection Hc as _ _ <-.
    apply (match_fold_fp (g :: gs) Jaccard_min (ps :: l)
             {| true_positives := 0; false_positives := 0;
                false_negatives := Z.of_nat (length (g :: gs)); matched_gt := ∅ |}).
  - intros Hpos. specialize (Hle Hpos). lia.
Qed.
End Counts.

(** X10.  The counts [evaluate_image] returns for a positive [Jaccard_min]
    are counts: TP, FN and FP are not negative, and TP is at most the number
    of ground-truth regions.  TP and FP are not negative for any
    [Jaccard_min]. *)
Theorem evaluate_image_counts_bounded (iou : Box → Box → Q)
    (annotations predictions : list Region) (thr Jaccard_min : Q) (tp fn fp : Z) :
  evaluate_image iou annotations predictions thr Jaccard_min = Ok (tp, fn, fp) →
  0 ≤ tp ∧ 0 ≤ fp ∧
  ((0 < Jaccard_min)%Q → tp ≤ Z.of_nat (length annotations) ∧ 0 ≤ fn).
Proof.
  unfold evaluate_image.
  destruct (pred_boxes_above predictions thr) as [l|]; [|done]. simpl.
  intros [= Hc]. apply count_matches_bounds in Hc. by rewrite length_map in Hc.
Qed.

Lemma evaluate_image_counts_bounded_witness :
  0 ≤ 1 ∧ 0 ≤ 1 ∧ ((0 < 0.5)%Q → 1 ≤ Z.of_nat 1 ∧ 0 ≤ 0).
Proof.
  apply (evaluate_image_counts_bounded calculate_iou
           [mkRegion (mkBox 0 0 10 10) None]
           [mkRegion (mkBox 0 0 10 10) (Some 0.9%Q);
            mkRegion (mkBox 5 0 15 10) (Some 0.8%Q)]
           0.5 0.5 1 0 1).
  vm_compute. reflexivity.
Defined.

(** ** How the sweeps end *)

Lemma threshold_list_length N : length (threshold_list N) = Z.to_nat (N + 1).
Proof. unfold threshold_list, range. by rewrite length_fmap, length_map, length_seq. Qed.

Section Outcomes.
Variable iou : Box → Box → Q.

Lemma evaluate_pr_naive_scored annotations predictions N Jaccard_min :
  0 < N → paired_scored annotations predictions →
  evaluate_pr_naive iou annotations predictions N Jaccard_min
  = Ok ((λ thr, point_of (naive_sum iou annotations predictions thr Jaccard_min) thr)
          <$> threshold_list N).
Proof.
  intros HN Hps. unfold evaluate_pr_naive. rewrite (thresholds_pos N HN). simpl.
  apply mapM_ok. intros thr _. by rewrite (naive_totals_ok iou).
Qed.

Lemma evaluate_pr_naive_unscored annotations predictions N Jaccard_min :
  0 < N → ¬ paired_scored annotations predictions →
  evaluate_pr_naive iou annotations predictions N Jaccard_min = Raise KeyError.
Proof.
  intros HN Hps. unfold evaluate_pr_naive. rewrite (thresholds_pos N HN). simpl.
  destruct (threshold_list_nonempty N HN) as [ths ->]. cbn [mapM].
  by rewrite naive_totals_raise.
Qed.

Lemma evaluate_pr_unscored annotations predictions N Jaccard_min :
  N ≠ 0 → ¬ well_scored predictions →
  evaluate_pr iou annotations predictions N Jaccard_min = Raise KeyError.
Proof.
  intros HN Hno. unfold evaluate_pr.
  assert (∃ ths, thresholds N = Ok ths) as [ths ->].
  { destruct (Z.lt_trichotomy N 0) as [?|[?|?]]; [|done|].
    - rewrite thresholds_neg by done. by eexists.
    - rewrite thresholds_pos by done. by eexists. }
  simpl. unfold sorted_predictions. by rewrite sorted_predictions_raise.
Qed.

Lemma evaluate_pr_neg annotations predictions N Jaccard_min :
  N < 0 → well_scored predictions →
  evaluate_pr iou annotations predictions N Jaccard_min = Ok [].
Proof.
  intros HN Hws. unfold evaluate_pr. rewrite (thresholds_neg N HN). simpl.
  by destruct (sorted_predictions_ok predictions Hws) as (sp & -> & _).
Qed.
End Outcomes.

(** X11.  How [evaluate_pr] ends.  With [N = 0] it raises
    ZeroDivisionError, whatever the documents.  With any other [N] it
    raises KeyError as soon as some region of some prediction image has no
    score, also in an image no ground-truth image is paired with.  When it
    returns, every prediction region has a score and the list has [N + 1]
    points, none for a negative [N]. *)
Theorem evaluate_pr_outcome (iou : Box → Box → Q)
    (annotations predictions : list Image) (N : Z) (Jaccard_min : Q) :
  (N = 0 →
   evaluate_pr iou annotations predictions N Jaccard_min = Raise ZeroDivisionError) ∧
  (N ≠ 0 → ¬ well_scored predictions →
   evaluate_pr iou annotations predictions N Jaccard_min = Raise KeyError) ∧
  (∀ results,
     evaluate_pr iou annotations predictions N Jaccard_min = Ok results →
     N ≠ 0 ∧ well_scored predictions ∧ length results = Z.to_nat (N + 1)).
Proof.
  split; [by intros ->|]. split; [by apply evaluate_pr_unscored|].
  intros results Hres.
  pose proof (evaluate_pr_not_scored _ _ _ _ _ _ Hres) as Hws.
  destruct (Z.lt_trichotomy N 0) as [Hneg|[->|Hpos]]; [| done |].
  - rewrite evaluate_pr_neg in Hres by done. injection Hres as <-.
    repeat split; [lia | done | simpl; lia].
  - rewrite evaluate_pr_pos in Hres by done. injection Hres as <-.
    rewrite length_fmap, threshold_list_length.
    repeat split; [lia | done].
Qed.

(** X12.  How [evaluate_pr_naive] ends.  With [N = 0] it raises
    ZeroDivisionError.  With a negative [N] it returns the empty list
    without reading the documents.  With a positive [N] it raises KeyError
    as soon as a region without a score occurs in a prediction image that
    has a ground-truth image at the same position.  When it returns, the
    list has [N + 1] points and, for a positive [N], every region of
    every paired prediction image has a score. *)
Theorem evaluate_pr_naive_outcome (iou : Box → Box → Q)
    (annotations predictions : list Image) (N : Z) (Jaccard_min : Q) :
  (N = 0 →
   evaluate_pr_naive iou annotations predictions N Jaccard_min
     = Raise ZeroDivisionError) ∧
  (N < 0 → evaluate_pr_naive iou annotations predictions N Jaccard_min = Ok []) ∧
  (0 < N → ¬ paired_scored annotations predictions →
   evaluate_pr_naive iou annotations predictions N Jaccard_min = Raise KeyError) ∧
  (∀ results,
     evaluate_pr_naive iou annotations predictions N Jaccard_min = Ok results →
     N ≠ 0 ∧ (0 < N → paired_scored annotations predictions) ∧
     length results = Z.to_nat (N + 1)).
Proof.
  split; [by intros ->|].
  split.
  { intros Hneg. unfold evaluate_pr_naive. by rewrite thresholds_neg. }
  split; [by apply evaluate_pr_naive_unscored|].
  intros results Hres.
  destruct (Z.lt_trichotomy N 0) as [Hneg|[->|Hpos]]; [| done |].
  - unfold evaluate_pr_naive in Hres. rewrite thresholds_neg in Hres by done.
    simpl in Hres. injection Hres as <-.
    repeat split; [lia | lia | simpl; lia].
  - destruct (decide (paired_scored annotations predictions)) as [Hps|Hno];
      [|by rewrite evaluate_pr_naive_unscored in Hres].
    rewrite evaluate_pr_naive_scored in Hres by done. injection Hres as <-.
    rewrite length_fmap, threshold_list_length.
    repeat split; [lia | done].
Qed.

(** ** Precision and recall as proportions *)

Lemma ratio_bounds num other :
  0 ≤ num → 0 ≤ other → (0 <= ratio num (num + other) <= 1)%Q.
Proof.
  intros Hnum Hother. unfold ratio.
  destruct (0 <? num + other) eqn:Hden; [|done].
  apply Z.ltb_lt in Hden.
  assert (0 < inject_Z (num + other))%Q as Hpos
    by (change 0%Q with (inject_Z 0); by rewrite <- Zlt_Qlt).
  split.
  - apply Qle_shift_div_l; [done|]. rewrite Qmult_0_l.
    change 0%Q with (inject_Z 0). by rewrite <- Zle_Qle.
  - apply Qle_shift_div_r; [done|]. rewrite Qmult_1_l. rewrite <- Zle_Qle. lia.
Qed.

Lemma precision_point_of totals thr :
  precision (point_of totals thr) = ratio totals.1.1 (totals.1.1 + totals.1.2).
Proof. by destruct totals as [[? ?] ?]. Qed.

Lemma fold_accumulate_bounds (P : Prop) (cs : list (Z * Z * Z)) acc :
  Forall (λ c, 0 ≤ c.1.1 ∧ 0 ≤ c.2 ∧ (P → 0 ≤ c.1.2)) cs →
  0 ≤ acc.1.1 ∧ 0 ≤ acc.1.2 ∧ (P → 0 ≤ acc.2) →
  0 ≤ (fold_left accumulate cs acc).1.1 ∧
  0 ≤ (fold_left accumulate cs acc).1.2 ∧
  (P → 0 ≤ (fold_left accumulate cs acc).2).
Proof.
  intros Hcs. revert acc.
  induction Hcs as [|[[tp fn] fp] cs (Htp & Hfp & Hfn) _ IH];
    intros [[total_tp total_fp] total_fn] (Ha & Hb & Hc); simpl in *; [done|].
  apply IH. simpl. split; [lia|]. split; [lia|]. intros HP.
  specialize (Hfn HP). specialize (Hc HP). lia.
Qed.

Lemma image_counts_bounds iou annotations predictions thr Jaccard_min :
  let c := image_counts iou annotations predictions thr Jaccard_min in
  0 ≤ c.1.1 ∧ 0 ≤ c.2 ∧ ((0 < Jaccard_min)%Q → 0 ≤ c.1.2).
Proof.
  unfold image_counts.
  destruct (count_matches iou (region <$> annotations)
              (sort_by_score (filter (above thr) (scored_boxes predictions)))
              Jaccard_min) as [[tp fn] fp] eqn:Hc.
  apply count_matches_bounds in Hc as (Htp & Hfp & Hfn). simpl.
  split; [done|]. split; [done|]. intros Hpos. by apply Hfn.
Qed.

Lemma point_of_bounds totals thr Jaccard_min :
  0 ≤ totals.1.1 ∧ 0 ≤ totals.1.2 ∧ ((0 < Jaccard_min)%Q → 0 ≤ totals.2) →
  (0 <= precision (point_of totals thr) <= 1)%Q ∧
  ((0 < Jaccard_min)%Q → (0 <= recall (point_of totals thr) <= 1)%Q).
Proof.
  intros (Htp & Hfp & Hfn). rewrite precision_point_of, recall_point_of.
  split; [by apply ratio_bounds|]. intros Hpos. apply ratio_bounds; auto.
Qed.

(** X13.  In every point that [evaluate_pr] or [evaluate_pr_naive] returns
    the precision lies between 0 and 1, and so does the recall when
    [Jaccard_min] is positive. *)
Theorem sweep_points_bounded (iou : Box → Box → Q)
    (annotations predictions : list Image) (N : Z) (Jaccard_min : Q)
    (results : list pr_point) :
  evaluate_pr iou annotations predictions N Jaccard_min = Ok results ∨
  evaluate_pr_naive iou annotations predictions N Jaccard_min = Ok results →
  Forall (λ point,
            (0 <= precision point <= 1)%Q ∧
            ((0 < Jaccard_min)%Q → (0 <= recall point <= 1)%Q))
         results.
Proof.
  intros Hres.
  assert (results = [] ∨
          ∃ f : Q → Z * Z * Z,
            results = (λ thr, point_of (f thr) thr) <$> threshold_list N ∧
            ∀ thr, 0 ≤ (f thr).1.1 ∧ 0 ≤ (f thr).1.2 ∧
                   ((0 < Jaccard_min)%Q → 0 ≤ (f thr).2)) as [->|(f & -> & Hf)].
  { destruct (Z.lt_trichotomy N 0) as [Hneg|[->|Hpos]].
    - left. destruct Hres as [Hres|Hres].
      + pose proof (evaluate_pr_not_scored _ _ _ _ _ _ Hres) as Hws.
        rewrite evaluate_pr_neg in Hres by done. congruence.
      + unfold evaluate_pr_naive in Hres. rewrite thresholds_neg in Hres by done.
        simpl in Hres. congruence.
    - by destruct Hres.
    - right. destruct Hres as [Hres|Hres].
      + pose proof (evaluate_pr_not_scored _ _ _ _ _ _ Hres) as Hws.
        rewrite evaluate_pr_pos in Hres by done. injection Hres as <-.
        eexists. split; [done|]. intros thr. unfold pr_sum.
        apply fold_accumulate_bounds; [|done].
        apply Forall_fmap, Forall_forall. intros g _. apply image_counts_bounds.
      + destruct (decide (paired_scored annotations predictions)) as [Hps|Hno];
          [|by rewrite evaluate_pr_naive_unscored in Hres].
        rewrite evaluate_pr_naive_scored in Hres by done. injection Hres as <-.
        eexists. split; [done|]. intros thr. unfold naive_sum.
        apply fold_accumulate_bounds; [|done].
        apply Forall_fmap, Forall_forall. intros g _. apply image_counts_bounds. }
  - constructor.
  - apply Forall_fmap, Forall_forall. intros thr _. by apply point_of_bounds.
Qed.

Lemma sweep_points_bounded_witness :
  Forall (λ point,
            (0 <= precision point <= 1)%Q ∧
            ((0 < 0.5)%Q → (0 <= recall point <= 1)%Q))
         [mkPoint (1 # 2) 1 (0 # 2); mkPoint (0 # 1) (0 # 1) (1 # 2);
          mkPoint 0 0 (2 # 2)].
Proof.
  apply (sweep_points_bounded calculate_iou
           [mkImage "a" [mkRegion (mkBox 0 0 10 10) None]]
           [mkImage "a" [mkRegion (mkBox 20 20 30 30) (Some 0.9%Q);
                         mkRegion (mkBox 0 0 10 10) (Some 0.3%Q)]]
           2 0.5).
  left. vm_compute. reflexivity.
Defined.

(** ** The order of the images *)

Lemma accumulate_comm acc x y :
  accumulate (accumulate acc x) y = accumulate (accumulate acc y) x.
Proof.
  destruct acc as [[? ?] ?], x as [[? ?] ?], y as [[? ?] ?]. simpl.
  f_equal; [f_equal|]; lia.
Qed.

Lemma fold_accumulate_perm cs cs' acc :
  cs ≡ₚ cs' → fold_left accumulate cs acc = fold_left accumulate cs' acc.
Proof.
  intros Hperm. revert acc.
  induction Hperm as [|x l l' _ IH|x y l|l l' l'' _ IH1 _ IH2]; intros acc; simpl.
  - done.
  - apply IH.
  - by rewrite accumulate_comm.
  - by rewrite IH1.
Qed.

Lemma paired_predictions_perm predictions predictions' loc :
  predictions ≡ₚ predictions' → NoDup (location <$> predictions) →
  paired_predictions predictions loc = paired_predictions predictions' loc.
Proof.
  intros Hperm Hnd.
  assert (NoDup (location <$> predictions')) as Hnd' by (by rewrite <- Hperm).
  destruct (decide (Exists (λ img, location img = loc) predictions)) as [Hex|Hno].
  - apply Exists_exists in Hex as (img & Hin & <-).
    rewrite (paired_predictions_unique predictions img) by done.
    rewrite (paired_predictions_unique predictions' img); [done..|].
    by rewrite <- Hperm.
  - rewrite Exists_exists in Hno.
    rewrite !paired_predictions_missing; [done|..].
    + intros img Hin Hloc. apply Hno. exists img. by rewrite Hperm.
    + intros img Hin Hloc. apply Hno. by exists img.
Qed.

Lemma pr_sum_perm iou annotations annotations' predictions predictions' thr Jaccard_min :
  annotations ≡ₚ annotations' → predictions ≡ₚ predictions' →
  NoDup (location <$> predictions) →
  pr_sum iou annotations predictions thr Jaccard_min
  = pr_sum iou annotations' predictions' thr Jaccard_min.
Proof.
  intros Ha Hp Hnd. unfold pr_sum.
  rewrite (fold_accumulate_perm _
             ((λ gt_img, image_counts iou (annotated_regions gt_img)
                           (paired_predictions predictions (location gt_img))
                           thr Jaccard_min) <$> annotations'))
    by (by apply fmap_Permutation).
  f_equal. apply list_fmap_ext. intros _ gt_img _.
  by rewrite (paired_predictions_perm predictions predictions').
Qed.

(** X14.  [evaluate_pr] does not depend on the order of the images: when no
    two prediction images have the same location, the ground-truth images
    and the prediction images may each be listed in any order, and the
    outcome, points or exception, is the same. *)
Theorem evaluate_pr_image_order (iou : Box → Box → Q)
    (annotations annotations' predictions predictions' : list Image)
    (N : Z) (Jaccard_min : Q) :
  annotations ≡ₚ annotations' →
  predictions ≡ₚ predictions' →
  NoDup (location <$> predictions) →
  evaluate_pr iou annotations predictions N Jaccard_min
  = evaluate_pr iou annotations' predictions' N Jaccard_min.
Proof.
  intros Ha Hp Hnd.
  destruct (decide (N = 0)) as [->|HN]; [done|].
  destruct (decide (well_scored predictions)) as [Hws|Hno].
  - assert (well_scored predictions') as Hws'
      by (unfold well_scored; by rewrite <- Hp).
    destruct (Z.lt_trichotomy N 0) as [Hneg|[?|Hpos]]; [|done|].
    + by rewrite !evaluate_pr_neg.
    + rewrite !evaluate_pr_pos by done. f_equal.
      apply list_fmap_ext. intros _ thr _. f_equal. by apply pr_sum_perm.
  - assert (¬ well_scored predictions') as Hno'
      by (unfold well_scored; by rewrite <- Hp).
    by rewrite !evaluate_pr_unscored.
Qed.

Lemma evaluate_pr_image_order_witness :
  evaluate_pr calculate_iou
    [mkImage "a" [mkRegion (mkBox 0 0 10 10) None];
     mkImage "b" [mkRegion (mkBox 0 0 4 4) None]]
    [mkImage "b" [mkRegion (mkBox 0 0 4 5) (Some 0.9%Q)];
     mkImage "a" [mkRegion (mkBox 0 0 10 10) (Some 0.3%Q)]]
    2 0.5
  = evaluate_pr calculate_iou
      [mkImage "b" [mkRegion (mkBox 0 0 4 4) None];
       mkImage "a" [mkRegion (mkBox 0 0 10 10) None]]
      [mkImage "a" [mkRegion (mkBox 0 0 10 10) (Some 0.3%Q)];
       mkImage "b" [mkRegion (mkBox 0 0 4 5) (Some 0.9%Q)]]
      2 0.5.
Proof.
  apply evaluate_pr_image_order.
  - apply perm_swap.
  - apply perm_swap.
  - refine (bool_decide_unpack _ _). vm_compute. exact I.
Defined.

(** ** Which predictions are matched *)

Section MatchRule.
Variable iou : Box → Box → Q.

Lemma match_step_no_candidate gt_boxes Jaccard_min st ps :
  (0 < Jaccard_min)%Q →
  (∀ idx gt, gt_boxes !! idx = Some gt → Some idx ∉ matched_gt st →
             (iou ps.1 gt < Jaccard_min)%Q) →
  match_step iou gt_boxes Jaccard_min st ps
  = {| true_positives := true_positives st;
       false_positives := false_positives st + 1;
       false_negatives := false_negatives st;
       matched_gt := matched_gt st |}.
Proof.
  intros Hpos Hno. unfold match_step, best_match.
  destruct (best_fold iou (matched_gt st) ps.1 (enumerate gt_boxes) 0%Q None
              (enum_from_sorted 0 gt_boxes))
    as (b & i & -> & Hb & Hall & Hcase).
  assert (Qle_bool Jaccard_min b = false) as ->; [|done].
  apply not_true_iff_false. rewrite Qle_bool_iff. apply Qlt_not_le.
  destruct Hcase as [[= -> ->]|(idx & gt & Hin & Hnm & -> & -> & _)]; [done|].
  apply (Hno idx gt); [by apply enumerate_elem | done].
Qed.

Lemma match_step_candidate gt_boxes Jaccard_min st ps idx gt :
  (0 < Jaccard_min)%Q →
  gt_boxes !! idx = Some gt → Some idx ∉ matched_gt st →
  (Jaccard_min <= iou ps.1 gt)%Q →
  true_positives (match_step iou gt_boxes Jaccard_min st ps)
  = true_positives st + 1.
Proof.
  intros Hpos Hl Hnm Hge. unfold match_step, best_match.
  destruct (best_fold iou (matched_gt st) ps.1 (enumerate gt_boxes) 0%Q None
              (enum_from_sorted 0 gt_boxes))
    as (b & i & -> & Hb & Hall & Hcase).
  assert (Jaccard_min <= b)%Q as Hle.
  { eapply Qle_trans; [exact Hge|]. eapply Hall; [by apply enumerate_elem | done]. }
  destruct Hcase as [[= -> ->]|(idx' & gt' & Hin & Hnm' & -> & -> & _)].
  { exfalso. apply (Qlt_irrefl 0). by eapply Qlt_le_trans. }
  apply Qle_bool_iff in Hle. rewrite Hle.
  by rewrite bool_decide_eq_true_2.
Qed.

(** A prediction that fits one unmatched box better than any other box
    takes that box. *)
Lemma match_step_own gt_boxes Jaccard_min st ps idx gt :
  gt_boxes !! idx = Some gt → Some idx ∉ matched_gt st →
  (0 < iou ps.1 gt)%Q → (Jaccard_min <= iou ps.1 gt)%Q →
  (∀ idx' gt', gt_boxes !! idx' = Some gt' → idx' ≠ idx →
               (iou ps.1 gt' < iou ps.1 gt)%Q) →
  match_step iou gt_boxes Jaccard_min st ps
  = {| true_positives := true_positives st + 1;
       false_positives := false_positives st;
       false_negatives := false_negatives st - 1;
       matched_gt := {[Some idx]} ∪ matched_gt st |}.
Proof.
  intros Hl Hnm Hpos Hge Hbest. unfold match_step, best_match.
  destruct (best_fold iou (matched_gt st) ps.1 (enumerate gt_boxes) 0%Q None
              (enum_from_sorted 0 gt_boxes))
    as (b & i & -> & Hb & Hall & Hcase).
  assert (iou ps.1 gt <= b)%Q as Hle
    by (eapply Hall; [by apply enumerate_elem | done]).
  destruct Hcase as [[= -> ->]|(idx' & gt' & Hin & Hnm' & -> & -> & _)].
  { exfalso. apply (Qlt_irrefl 0). by eapply Qlt_le_trans. }
  apply enumerate_elem in Hin.
  destruct (decide (idx' = idx)) as [->|Hne].
  - assert (Jaccard_min <= iou ps.1 gt')%Q as Hj by (by eapply Qle_trans).
    apply Qle_bool_iff in Hj. rewrite Hj.
    by rewrite bool_decide_eq_true_2.
  - exfalso. apply (Qlt_irrefl (iou ps.1 gt')).
    eapply Qlt_le_trans; [by eapply Hbest | done].
Qed.

(** As long as nothing is matched: the count of true positives stays as it
    is exactly when no prediction reaches [Jaccard_min] on any box. *)
Lemma match_fold_none gt_boxes Jaccard_min pred_boxes st :
  (0 < Jaccard_min)%Q → matched_gt st = ∅ →
  true_positives (fold_left (match_step iou gt_boxes Jaccard_min) pred_boxes st)
    = true_positives st
  ↔ ∀ ps gt, ps ∈ pred_boxes → gt ∈ gt_boxes → (iou ps.1 gt < Jaccard_min)%Q.
Proof.
  intros Hpos. revert st.
  induction pred_boxes as [|ps l IH]; intros st Hempty; simpl.
  - split; [|done]. intros _ ps gt Hin. by apply elem_of_nil in Hin.
  - destruct (Forall_Exists_dec (λ gt, iou ps.1 gt < Jaccard_min)%Q
                (λ gt, Jaccard_min <= iou ps.1 gt)%Q
                (λ gt, Qlt_le_dec (iou ps.1 gt) Jaccard_min) gt_boxes)
      as [Hall|Hex].
    + rewrite Forall_forall in Hall.
      rewrite match_step_no_candidate; [|done|].
      2: { intros idx gt Hl _. apply Hall. by eapply list_elem_of_lookup_2. }
      pose proof (IH {| true_positives := true_positives st;
                        false_positives := false_positives st + 1;
                        false_negatives := false_negatives st;
                        matched_gt := matched_gt st |} Hempty) as IH1.
      cbn [true_positives] in IH1. rewrite IH1. split.
      * intros Hl ps' gt Hin Hgt.
        apply elem_of_cons in Hin as [->|Hin]; [by apply Hall | by apply Hl].
      * intros Hl ps' gt Hin Hgt. apply Hl; [by right | done].
    + apply Exists_exists in Hex as (gt & Hgt & Hge).
      apply list_elem_of_lookup in Hgt as [idx Hl].
      pose proof (match_step_candidate gt_boxes Jaccard_min st ps idx gt Hpos Hl) as Htp.
      rewrite Hempty in Htp. specialize (Htp (not_elem_of_empty _) Hge).
      pose proof (match_fold_counts iou gt_boxes Jaccard_min l
                    (match_step iou gt_boxes Jaccard_min st ps)) as (_ & _ & Hmono).
      split.
      * intros Heq. lia.
      * intros Hno. exfalso. apply (Qlt_irrefl Jaccard_min).
        eapply Qle_lt_trans; [exact Hge|].
        apply Hno; [by left | by eapply list_elem_of_lookup_2].
Qed.

Lemma count_matches_none gt_boxes pred_boxes Jaccard_min :
  (0 < Jaccard_min)%Q →
  (count_matches iou gt_boxes pred_boxes Jaccard_min).1.1 = 0
  ↔ ∀ ps gt, ps ∈ pred_boxes → gt ∈ gt_boxes → (iou ps.1 gt < Jaccard_min)%Q.
Proof.
  intros Hpos. unfold count_matches.
  destruct gt_boxes as [|gt0 gts].
  { simpl. split; [|done]. intros _ ps gt _ Hin. by apply elem_of_nil in Hin. }
  destruct pred_boxes as [|ps0 pss].
  { simpl. split; [|done]. intros _ ps gt Hin. by apply elem_of_nil in Hin. }
  cbn [fst]. unfold match_loop.
  by rewrite (match_fold_none (gt0 :: gts) Jaccard_min (ps0 :: pss) _ Hpos).
Qed.
End MatchRule.

Lemma elem_of_scored_boxes regions b s :
  (b, s) ∈ scored_boxes regions
  ↔ ∃ r, r ∈ regions ∧ region r = b ∧ score r = Some s.
Proof.
  unfold scored_boxes. rewrite list_elem_of_omap. split.
  - intros (r & Hr & Hs). exists r. split; [done|].
    destruct (score r) as [s'|]; simpl in Hs; [|done]. by injection Hs as <- <-.
  - intros (r & Hr & <- & Hs). exists r. split; [done|]. by rewrite Hs.
Qed.

(** X18.  With a positive [Jaccard_min], [evaluate_image] counts no true
    positive exactly when no prediction that passes the score filter
    reaches an IoU of [Jaccard_min] with any ground-truth box: one such
    pair is enough for a true positive, whatever the other predictions
    are. *)
Theorem evaluate_image_no_match (iou : Box → Box → Q)
    (annotations predictions : list Region) (thr Jaccard_min : Q)
    (tp fn fp : Z) :
  (0 < Jaccard_min)%Q →
  evaluate_image iou annotations predictions thr Jaccard_min = Ok (tp, fn, fp) →
  tp = 0 ↔
  ∀ pred gt, pred ∈ predictions → gt ∈ annotations → passes thr pred →
             (iou (region pred) (region gt) < Jaccard_min)%Q.
Proof.
  intros Hpos Hres.
  pose proof (evaluate_image_counts _ _ _ _ _ _ Hres) as Hc.
  unfold image_counts in Hc.
  pose proof (count_matches_none iou (region <$> annotations)
                (sort_by_score (filter (above thr) (scored_boxes predictions)))
                Jaccard_min Hpos) as Hnone.
  rewrite <- Hc in Hnone. cbn [fst] in Hnone. rewrite Hnone. clear Hnone Hc.
  assert (∃ l, pred_boxes_above predictions thr = Ok l) as [l Hl].
  { unfold evaluate_image in Hres.
    destruct (pred_boxes_above predictions thr) as [l|e]; [by eexists | done]. }
  split.
  - intros Hno pred gt Hpred Hgt Hpass.
    destruct (score pred) as [s|] eqn:Hs.
    + apply (Hno (region pred, s) (region gt)).
      * unfold sort_by_score. rewrite sort_by_perm.
        apply list_elem_of_filter. split.
        -- unfold above. unfold passes, get_score in Hpass. by rewrite Hs in Hpass.
        -- apply elem_of_scored_boxes. by exists pred.
      * by apply list_elem_of_fmap_2.
    + exfalso. apply (pred_boxes_above_ok _ _ _ Hl pred Hpred Hs).
      unfold passes, get_score in Hpass. rewrite Hs in Hpass.
      by apply Qle_bool_iff in Hpass.
  - intros Hno [b s] gt Hin Hgt.
    unfold sort_by_score in Hin. rewrite sort_by_perm in Hin.
    apply list_elem_of_filter in Hin as [Habove Hin].
    apply elem_of_scored_boxes in Hin as (pred & Hpred & <- & Hs).
    apply list_elem_of_fmap in Hgt as (g & -> & Hg).
    apply Hno; [done..|].
    unfold passes, get_score. by rewrite Hs.
Qed.

Lemma evaluate_image_no_match_witness :
  1 = 0 ↔
  ∀ pred gt,
    pred ∈ [mkRegion (mkBox 20 20 30 30) (Some 0.9%Q);
            mkRegion (mkBox 0 0 10 8) (Some 0.6%Q)] →
    gt ∈ [mkRegion (mkBox 0 0 10 10) None] →
    passes 0.5 pred →
    (calculate_iou (region pred) (region gt) < 0.5)%Q.
Proof.
  apply (evaluate_image_no_match calculate_iou
           [mkRegion (mkBox 0 0 10 10) None]
           [mkRegion (mkBox 20 20 30 30) (Some 0.9%Q);
            mkRegion (mkBox 0 0 10 8) (Some 0.6%Q)]
           0.5 0.5 1 0 1).
  - reflexivity.
  - vm_compute. reflexivity.
Defined.

(** ** Predictions that are the ground truth *)

Lemma match_fold_own (iou : Box → Box → Q) gt_boxes Jaccard_min pred_boxes st :
  (∀ idx gt, gt_boxes !! idx = Some gt →
     (0 < iou gt gt)%Q ∧ (Jaccard_min <= iou gt gt)%Q ∧
     ∀ idx' gt', gt_boxes !! idx' = Some gt' → idx' ≠ idx →
                 (iou gt gt' < iou gt gt)%Q) →
  NoDup pred_boxes.*1 →
  (∀ pred, pred ∈ pred_boxes.*1 →
     ∃ idx, gt_boxes !! idx = Some pred ∧ Some idx ∉ matched_gt st) →
  let st' := fold_left (match_step iou gt_boxes Jaccard_min) pred_boxes st in
  true_positives st' = true_positives st + Z.of_nat (length pred_boxes) ∧
  false_positives st' = false_positives st ∧
  false_negatives st' = false_negatives st - Z.of_nat (length pred_boxes).
Proof.
  intros Hgt. revert st.
  induction pred_boxes as [|[pred s] l IH]; intros st Hnd Hidx; simpl.
  { lia. }
  simpl in Hnd. apply NoDup_cons in Hnd as [Hfresh Hnd].
  destruct (Hidx pred) as (idx & Hl & Hnm); [by left|].
  destruct (Hgt idx pred Hl) as (Hpos & Hge & Hbest).
  rewrite (match_step_own iou gt_boxes Jaccard_min st (pred, s) idx pred)
    by done.
  match goal with |- context [fold_left _ l ?st1] => specialize (IH st1 Hnd) end.
  cbn [true_positives false_positives false_negatives matched_gt] in IH.
  destruct IH as (Htp & Hfp & Hfn); [|lia].
  intros pred' Hin.
  destruct (Hidx pred') as (idx' & Hl' & Hnm'); [by right|].
  exists idx'. split; [done|].
  apply not_elem_of_union. split; [|done].
  apply not_elem_of_singleton. intros [= ->].
  rewrite Hl in Hl'. injection Hl' as ->. done.
Qed.

Lemma scored_boxes_all_above regions thr :
  Forall (λ r, ∃ s, score r = Some s ∧ (thr <= s)%Q) regions →
  filter (above thr) (scored_boxes regions) = scored_boxes regions ∧
  (scored_boxes regions).*1 = region <$> regions.
Proof.
  induction 1 as [|r rs (s & Hs & Hle) _ [IH1 IH2]]; [done|].
  rewrite (scored_boxes_cons_Some r rs s Hs).
  rewrite filter_cons_True by (by apply Qle_bool_iff).
  rewrite IH1, fmap_cons, IH2. done.
Qed.

(** X19.  Predictions that are the ground truth are all found.  Take an
    IoU for which every ground-truth box fits itself with a positive value
    of at least [Jaccard_min] and fits every other ground-truth box
    strictly less.  When the predictions are the ground-truth boxes, in any
    order and each with a score that passes the threshold,
    [evaluate_image] returns as many true positives as there are boxes, no
    false negative and no false positive. *)
Theorem evaluate_image_self (iou : Box → Box → Q)
    (annotations predictions : list Region) (thr Jaccard_min : Q) :
  (∀ i gt, annotations !! i = Some gt →
     (0 < iou (region gt) (region gt))%Q ∧
     (Jaccard_min <= iou (region gt) (region gt))%Q ∧
     ∀ j gt', annotations !! j = Some gt' → j ≠ i →
              (iou (region gt) (region gt') < iou (region gt) (region gt))%Q) →
  region <$> predictions ≡ₚ region <$> annotations →
  Forall (λ pred, ∃ s, score pred = Some s ∧ (thr <= s)%Q) predictions →
  evaluate_image iou annotations predictions thr Jaccard_min
  = Ok (Z.of_nat (length annotations), 0, 0).
Proof.
  intros Hown Hperm Hscores.
  rewrite evaluate_image_scored.
  2: { eapply Forall_impl; [exact Hscores|]. intros r (s & Hs & _). by eexists. }
  f_equal. unfold image_counts.
  destruct (scored_boxes_all_above predictions thr Hscores) as [-> Hboxes].
  set (gt_boxes := region <$> annotations) in *.
  set (pred_boxes := sort_by_score (scored_boxes predictions)).
  assert (pred_boxes.*1 ≡ₚ gt_boxes) as Hpb.
  { unfold pred_boxes, sort_by_score. by rewrite sort_by_perm, Hboxes. }
  assert (length pred_boxes = length gt_boxes) as Hlen
    by (by rewrite <- Hpb, length_fmap).
  assert (length gt_boxes = length annotations) as Hlen'
    by (unfold gt_boxes; by rewrite length_fmap).
  assert (∀ idx gt, gt_boxes !! idx = Some gt →
            (0 < iou gt gt)%Q ∧ (Jaccard_min <= iou gt gt)%Q ∧
            ∀ idx' gt', gt_boxes !! idx' = Some gt' → idx' ≠ idx →
                        (iou gt gt' < iou gt gt)%Q) as Hgt.
  { intros idx gt Hl. unfold gt_boxes in Hl. rewrite list_lookup_fmap in Hl.
    destruct (annotations !! idx) as [r|] eqn:Hr; [|done].
    simpl in Hl. injection Hl as <-.
    destruct (Hown idx r Hr) as (Hpos & Hge & Hbest).
    split; [done|]. split; [done|].
    intros idx' gt' Hl' Hne. unfold gt_boxes in Hl'. rewrite list_lookup_fmap in Hl'.
    destruct (annotations !! idx') as [r'|] eqn:Hr'; [|done].
    simpl in Hl'. injection Hl' as <-. by apply (Hbest idx'). }
  assert (NoDup gt_boxes) as Hnd.
  { apply NoDup_alt. intros i j gt Hi Hj.
    destruct (decide (i = j)) as [->|Hne]; [done|].
    destruct (Hgt i gt Hi) as (_ & _ & Hbest).
    destruct (Qlt_irrefl (iou gt gt)). by eapply (Hbest j gt Hj). }
  unfold count_matches.
  destruct gt_boxes as [|gt0 gts] eqn:Hgts.
  { destruct pred_boxes; [|done]. simpl in Hlen'. by rewrite <- Hlen'. }
  destruct pred_boxes as [|ps0 pss] eqn:Hps; [done|].
  rewrite <- Hgts, <- Hps in *. unfold match_loop.
  destruct (match_fold_own iou gt_boxes Jaccard_min pred_boxes
              {| true_positives := 0; false_positives := 0;
                 false_negatives := Z.of_nat (length gt_boxes);
                 matched_gt := ∅ |}) as (Htp & Hfp & Hfn).
  - rewrite Hgts. rewrite Hgts in Hgt. exact Hgt.
  - by rewrite Hpb.
  - intros pred Hin. rewrite Hpb in Hin.
    apply list_elem_of_lookup in Hin as [idx Hl].
    exists idx. split; [done|]. apply not_elem_of_empty.
  - cbn [true_positives false_positives false_negatives] in *.
    rewrite Htp, Hfp, Hfn, Hlen, Hlen'. repeat f_equal; lia.
Qed.

Lemma evaluate_image_self_witness :
  evaluate_image calculate_iou
    [mkRegion (mkBox 0 0 10 10) None; mkRegion (mkBox 5 0 15 10) None]
    [mkRegion (mkBox 5 0 15 10) (Some 0.6%Q); mkRegion (mkBox 0 0 10 10) (Some 0.9%Q)]
    0.5 0.5
  = Ok (Z.of_nat 2, 0, 0).
Proof.
  apply (evaluate_image_self calculate_iou
           [mkRegion (mkBox 0 0 10 10) None; mkRegion (mkBox 5 0 15 10) None]
           [mkRegion (mkBox 5 0 15 10) (Some 0.6%Q);
            mkRegion (mkBox 0 0 10 10) (Some 0.9%Q)]
           0.5 0.5).
  - intros [|[|i]] gt Hi; [| |done]; injection Hi as <-;
      (split; [reflexivity|]); (split; [vm_compute; discriminate|]);
      intros [|[|j]] gt' Hj Hne; try done; injection Hj as <-; reflexivity.
  - apply perm_swap.
  - repeat constructor; eexists; (split; [reflexivity|]); vm_compute; discriminate.
Defined.
